(** * bareinfra: the pod registry of the bare-infrastructure provider

    A shallow embedding of [bareinfra.go].  The provider keeps a slice of
    pointers to pod objects ([p.pods []*v1.Pod]); the pod objects live on the
    Go heap and are shared with the callers that handed them in or got them
    back.  The embedding therefore keeps the pod objects in an explicit heap
    and the table as the sequence of pointers held by the slice. *)

From Stdlib Require Import ZArith String Ascii.
From stdpp Require Import base option list gmap strings.


(** ** The Kubernetes API types the provider reads and writes

    Only the fields that [bareinfra.go] touches are kept; every other field
    of the Kubernetes structs keeps its zero value throughout and is left
    out.  A Go slice value is modelled by the sequence of its elements, so a
    nil slice and an empty one are both [[]]; a nil map and an empty one are
    both [∅]. *)

Module metav1.

(** [metav1.Time]: an instant, as a count of clock units. *)
Definition Time := Z.

Record ObjectMeta := mkObjectMeta {
  Name : string;
  Namespace : string;
  Annotations : gmap string string
}.

End metav1.

Module resource.

(** [resource.Quantity] as produced by [resource.MustParse]: the parser
    belongs to the Kubernetes libraries, so a quantity is represented by
    the literal it was parsed from. *)
Inductive Quantity := MustParse (str : string).

End resource.

Module v1.

Definition ConditionStatus := string.
Definition ConditionTrue : ConditionStatus := "True".
Definition ConditionFalse : ConditionStatus := "False".

Definition PodPhase := string.
Definition PodRunning : PodPhase := "Running".

Definition PodConditionType := string.
Definition PodReady : PodConditionType := "Ready".

Record Container := mkContainer {
  Container_Name : string
}.

Record ContainerStateWaiting := mkContainerStateWaiting {
  Waiting_Reason : string;
  Waiting_Message : string
}.

Record ContainerStateRunning := mkContainerStateRunning {
  StartedAt : metav1.Time
}.

Record ContainerStateTerminated := mkContainerStateTerminated {
  ExitCode : Z;
  Terminated_Reason : string
}.

(** The three members are pointers in Go; [None] is the nil pointer. *)
Record ContainerState := mkContainerState {
  Waiting : option ContainerStateWaiting;
  Running : option ContainerStateRunning;
  Terminated : option ContainerStateTerminated
}.

Record ContainerStatus := mkContainerStatus {
  ContainerStatus_Name : string;
  State : ContainerState;
  Ready : bool;
  RestartCount : Z
}.

Record PodCondition := mkPodCondition {
  PodCondition_Type : PodConditionType;
  PodCondition_Status : ConditionStatus
}.

Record PodStatus := mkPodStatus {
  Phase : PodPhase;
  Conditions : list PodCondition;
  PodIP : string;
  ContainerStatuses : list ContainerStatus
}.

(** [v1.PodStatus{}] *)
Definition PodStatus_zero : PodStatus :=
  {| Phase := ""; Conditions := []; PodIP := ""; ContainerStatuses := [] |}.

Record PodSpec := mkPodSpec {
  Containers : list Container
}.

Record Pod := mkPod {
  ObjectMeta : metav1.ObjectMeta;
  Spec : PodSpec;
  Status : PodStatus
}.

(** The assignment [pod.Status = s]. *)
Definition set_Status (s : PodStatus) (pod : Pod) : Pod :=
  {| ObjectMeta := ObjectMeta pod; Spec := Spec pod; Status := s |}.

(** The assignment [pod.Name = n] (done by callers, never by the provider). *)
Definition set_Name (n : string) (pod : Pod) : Pod :=
  {| ObjectMeta :=
       {| metav1.Name := n;
          metav1.Namespace := metav1.Namespace (ObjectMeta pod);
          metav1.Annotations := metav1.Annotations (ObjectMeta pod) |};
     Spec := Spec pod; Status := Status pod |}.

Definition ResourceList := gmap string resource.Quantity.

Record NodeCondition := mkNodeCondition {
  NodeCondition_Type : string;
  NodeCondition_Status : ConditionStatus;
  LastHeartbeatTime : metav1.Time;
  LastTransitionTime : metav1.Time;
  Reason : string;
  Message : string
}.

Record NodeAddress := mkNodeAddress {
  Address_Type : string;
  Address : string
}.

Record NodeDaemonEndpoints := mkNodeDaemonEndpoints {
  KubeletEndpoint_Port : Z
}.

End v1.

(** The promoted fields [pod.Name], [pod.Namespace], [pod.Annotations]. *)
Definition Pod_Name (pod : v1.Pod) : string := metav1.Name (v1.ObjectMeta pod).
Definition Pod_Namespace (pod : v1.Pod) : string :=
  metav1.Namespace (v1.ObjectMeta pod).
Definition Pod_Annotations (pod : v1.Pod) : gmap string string :=
  metav1.Annotations (v1.ObjectMeta pod).

(** ** Pointers, the heap and the provider *)

Definition loc := positive.

(** A [*v1.Pod]: [None] is the nil pointer. *)
Definition ptr := option loc.

(** [type Provider struct]; the resource manager is an opaque handle. *)
Record Provider := mkProvider {
  resourceManager : option positive;
  nodeName : string;
  operatingSystem : string;
  pods : list ptr
}.

Definition set_pods (ps : list ptr) (p : Provider) : Provider :=
  {| resourceManager := resourceManager p; nodeName := nodeName p;
     operatingSystem := operatingSystem p; pods := ps |}.

(** What the provider hands to the standard logger. *)
Inductive log_entry :=
| Log_CreatePod (name : string)
| Log_UpdatePod
| Log_ExecInContainer (container : string).

(** The part of the process state the provider's methods act on: the
    receiver [*p], the pod objects, the clock behind [metav1.Now()] given by
    its successive readings, and the logger's output. *)
Record World := mkWorld {
  provider : Provider;
  heap : gmap loc v1.Pod;
  clock : nat -> metav1.Time;
  ticks : nat;
  logged : list log_entry
}.

(** ** Go computations: state passing, with run-time panics *)

Inductive result (A : Type) :=
| Returns (a : A) (w : World)
| Panics.
Arguments Returns {A} a w.
Arguments Panics {A}.

Definition Go (A : Type) := World -> result A.

Definition ret {A} (a : A) : Go A := fun w => Returns a w.

Definition bind {A B} (m : Go A) (k : A -> Go B) : Go B :=
  fun w => match m w with
           | Returns a w' => k a w'
           | Panics => Panics
           end.

Declare Scope go_scope.
Delimit Scope go_scope with go.
Notation "'let!' x ':=' m 'in' k" := (bind m (fun x => k))
  (at level 10, x pattern, m at level 100, k at level 200) : go_scope.
Notation "m ';;' k" := (bind m (fun _ => k))
  (at level 100, k at level 200, right associativity) : go_scope.
Local Open Scope go_scope.

(** Field updates of the world. *)
Definition with_table (ps : list ptr) (w : World) : World :=
  {| provider := set_pods ps (provider w); heap := heap w;
     clock := clock w; ticks := ticks w; logged := logged w |}.

Definition with_heap (h : gmap loc v1.Pod) (w : World) : World :=
  {| provider := provider w; heap := h;
     clock := clock w; ticks := ticks w; logged := logged w |}.

Definition with_ticks (n : nat) (w : World) : World :=
  {| provider := provider w; heap := heap w;
     clock := clock w; ticks := n; logged := logged w |}.

Definition with_log (e : log_entry) (w : World) : World :=
  {| provider := provider w; heap := heap w;
     clock := clock w; ticks := ticks w; logged := logged w ++ [e] |}.

(** Dereferencing [*p]: a nil pointer panics.  Go has no dangling pointers;
    an address outside the heap is treated like nil. *)
Definition deref (h : gmap loc v1.Pod) (p : ptr) : option v1.Pod :=
  match p with
  | Some l => h !! l
  | None => None
  end.

Definition load (p : ptr) : Go v1.Pod :=
  fun w => match deref (heap w) p with
           | Some pod => Returns pod w
           | None => Panics
           end.

(** A write [*l = f( *l )] to the pod object at [l], by the provider or by
    any other holder of the pointer. *)
Definition poke (l : loc) (f : v1.Pod -> v1.Pod) (w : World) : World :=
  with_heap (alter f l (heap w)) w.

Definition modify (p : ptr) (f : v1.Pod -> v1.Pod) : Go unit :=
  fun w => match p with
           | Some l => match heap w !! l with
                       | Some _ => Returns tt (poke l f w)
                       | None => Panics
                       end
           | None => Panics
           end.

(** Reading and assigning the field [p.pods]. *)
Definition read_pods : Go (list ptr) :=
  fun w => Returns (pods (provider w)) w.

Definition write_pods (ps : list ptr) : Go unit :=
  fun w => Returns tt (with_table ps w).

(** [metav1.Now()]: the next reading of the clock. *)
Definition Now : Go metav1.Time :=
  fun w => Returns (clock w (ticks w)) (with_ticks (S (ticks w)) w).

Definition log_print (e : log_entry) : Go unit :=
  fun w => Returns tt (with_log e w).

(** ** Errors *)

(** A Go [error] made by [fmt.Errorf]: its message. *)
Inductive error := Errorf (msg : string).

Definition quote : string := String "034"%char EmptyString.

(** [fmt.Errorf("Pod: \"%s\" in namespace \"%s\" exist", name, namespace)] *)
Definition AlreadyExists (name namespace : string) : error :=
  Errorf ("Pod: " +:+ quote +:+ name +:+ quote +:+ " in namespace "
          +:+ quote +:+ namespace +:+ quote +:+ " exist").

(** [fmt.Errorf("Pod: \"%s\" in namespace \"%s\" not found", name, namespace)] *)
Definition NotFound (name namespace : string) : error :=
  Errorf ("Pod: " +:+ quote +:+ name +:+ quote +:+ " in namespace "
          +:+ quote +:+ namespace +:+ quote +:+ " not found").

(** ** The provider's methods *)

(** [NewProvider]: the table starts as the nil slice. *)
Definition NewProvider (rm : option positive) (nodeName operatingSystem : string)
  : Provider * option error :=
  ({| resourceManager := rm; nodeName := nodeName;
      operatingSystem := operatingSystem; pods := [] |}, None).

(** [podI.Name == name && podI.Namespace == namespace] *)
Definition same_identity (pod : v1.Pod) (namespace name : string) : bool :=
  bool_decide (Pod_Name pod = name) && bool_decide (Pod_Namespace pod = namespace).

(** The loop of [GetPod] over the elements still to be visited.  Falling out
    of the loop returns the named result [pod], still nil, and the error. *)
Fixpoint GetPod_range (rest : list ptr) (namespace name : string)
  : Go (ptr * option error) :=
  match rest with
  | [] => ret (None, Some (NotFound name namespace))
  | podI :: rest' =>
      let! x := load podI in
      if same_identity x namespace name
      then ret (podI, None)
      else GetPod_range rest' namespace name
  end.

Definition GetPod (namespace name : string) : Go (ptr * option error) :=
  let! ps := read_pods in
  GetPod_range ps namespace name.

(** The loop of [CreatePod] over [pod.Spec.Containers]; [acc] is
    [containerStatusesMap]. *)
Fixpoint CreatePod_range (rest : list v1.Container) (acc : list v1.ContainerStatus)
  : Go (list v1.ContainerStatus) :=
  match rest with
  | [] => ret acc
  | c :: rest' =>
      let! now := Now in
      let cs :=
        {| v1.ContainerStatus_Name := v1.Container_Name c;
           v1.State :=
             {| v1.Waiting := None;
                v1.Running := Some {| v1.StartedAt := now |};
                v1.Terminated := None |};
           v1.Ready := true;
           v1.RestartCount := 0 |} in
      CreatePod_range rest' (acc ++ [cs])
  end.

(** Reading a map at a key: the zero value when the key is absent. *)
Definition map_index (m : gmap string string) (k : string) : string :=
  default "" (m !! k).

Definition CreatePod (pod : ptr) : Go (option error) :=
  let! x := load pod in
  log_print (Log_CreatePod (Pod_Name x));;
  let! (_, err) := GetPod (Pod_Namespace x) (Pod_Name x) in
  match err with
  | None => ret (Some (AlreadyExists (Pod_Name x) (Pod_Namespace x)))
  | Some _ =>
      let podIP := map_index (Pod_Annotations x) "vk/PodIP" in
      let! containerStatusesMap := CreatePod_range (v1.Containers (v1.Spec x)) [] in
      modify pod (v1.set_Status
        {| v1.PodIP := podIP;
           v1.Phase := v1.PodRunning;
           v1.Conditions :=
             [ {| v1.PodCondition_Type := v1.PodReady;
                  v1.PodCondition_Status := v1.ConditionTrue |} ];
           v1.ContainerStatuses := containerStatusesMap |});;
      let! ps := read_pods in
      write_pods (ps ++ [pod]);;
      ret None
  end.

Definition UpdatePod (pod : ptr) : Go (option error) :=
  log_print Log_UpdatePod;;
  ret None.

(** The loop of [DeletePod]: [pods] is the local copy of the slice, [rest]
    its elements from [index] on.  [append(pods[:index], pods[index+1:]...)]
    yields the elements of [pods] without the one at [index]. *)
Fixpoint DeletePod_range (pods rest : list ptr) (index : nat)
    (namespace name : string) : Go unit :=
  match rest with
  | [] => ret tt
  | podI :: rest' =>
      let! x := load podI in
      if same_identity x namespace name
      then write_pods (take index pods ++ drop (S index) pods)
      else DeletePod_range pods rest' (S index) namespace name
  end.

Definition DeletePod (pod : ptr) : Go (option error) :=
  let! x := load pod in
  let namespace := Pod_Namespace x in
  let name := Pod_Name x in
  let! pods := read_pods in
  DeletePod_range pods pods 0 namespace name;;
  ret None.

(** A [*v1.PodStatus]: nil, the address of a newly allocated status, or the
    address [&pod.Status] of the status field inside a pod object. *)
Inductive PodStatus_ptr :=
| Status_nil
| Status_new (s : v1.PodStatus)
| Status_field (l : loc).

Definition GetPodStatus (namespace name : string)
  : Go (PodStatus_ptr * option error) :=
  let! (pod, err) := GetPod namespace name in
  match err with
  | Some e => ret (Status_new v1.PodStatus_zero, Some e)
  | None =>
      match pod with
      | Some l => ret (Status_field l, None)
      | None => fun _ => Panics
      end
  end.

Definition GetPods : Go (list ptr * option error) :=
  let! ps := read_pods in
  ret (ps, None).

Definition Capacity : Go v1.ResourceList :=
  ret (<["cpu" := resource.MustParse "20"]>
       (<["memory" := resource.MustParse "100Gi"]>
       (<["pods" := resource.MustParse "20"]> ∅))).

Definition NodeConditions : Go (list v1.NodeCondition) :=
  let! h1 := Now in let! t1 := Now in
  let! h2 := Now in let! t2 := Now in
  let! h3 := Now in let! t3 := Now in
  let! h4 := Now in let! t4 := Now in
  let! h5 := Now in let! t5 := Now in
  ret [ {| v1.NodeCondition_Type := "Ready";
           v1.NodeCondition_Status := v1.ConditionTrue;
           v1.LastHeartbeatTime := h1;
           v1.LastTransitionTime := t1;
           v1.Reason := "KubeletReady";
           v1.Message := "kubelet is ready." |};
        {| v1.NodeCondition_Type := "OutOfDisk";
           v1.NodeCondition_Status := v1.ConditionFalse;
           v1.LastHeartbeatTime := h2;
           v1.LastTransitionTime := t2;
           v1.Reason := "KubeletHasSufficientDisk";
           v1.Message := "kubelet has sufficient disk space available" |};
        {| v1.NodeCondition_Type := "MemoryPressure";
           v1.NodeCondition_Status := v1.ConditionFalse;
           v1.LastHeartbeatTime := h3;
           v1.LastTransitionTime := t3;
           v1.Reason := "KubeletHasSufficientMemory";
           v1.Message := "kubelet has sufficient memory available" |};
        {| v1.NodeCondition_Type := "DiskPressure";
           v1.NodeCondition_Status := v1.ConditionFalse;
           v1.LastHeartbeatTime := h4;
           v1.LastTransitionTime := t4;
           v1.Reason := "KubeletHasNoDiskPressure";
           v1.Message := "kubelet has no disk pressure" |};
        {| v1.NodeCondition_Type := "NetworkUnavailable";
           v1.NodeCondition_Status := v1.ConditionFalse;
           v1.LastHeartbeatTime := h5;
           v1.LastTransitionTime := t5;
           v1.Reason := "RouteCreated";
           v1.Message := "RouteController created a route" |} ].

Definition NodeAddresses : Go (list v1.NodeAddress) := ret [].

Definition NodeDaemonEndpoints : Go v1.NodeDaemonEndpoints :=
  ret {| v1.KubeletEndpoint_Port := 0 |}.

(** [providers.OperatingSystemLinux] *)
Definition OperatingSystemLinux : string := "Linux".

Definition OperatingSystem : Go string := ret OperatingSystemLinux.

Definition GetPodFullName (namespace pod : string) : Go string :=
  ret (namespace +:+ "-" +:+ pod).

(** The attached streams of [RunInContainer] are never used and are left
    out. *)
Definition RunInContainer (namespace name container : string)
    (cmd : list string) : Go (option error) :=
  log_print (Log_ExecInContainer container);;
  ret None.

(** ** The registry as seen through the table *)

(** The table: the elements of [p.pods], in slice order. *)
Definition table (w : World) : list ptr := pods (provider w).

(** [has_identity h namespace name p]: in the heap [h], [p] points to a pod
    object whose name and namespace are the given ones. *)
Definition has_identity (h : gmap loc v1.Pod) (namespace name : string)
    (p : ptr) : bool :=
  match deref h p with
  | Some x => same_identity x namespace name
  | None => false
  end.

(** The live records with a given identity, in table order. *)
Definition live (w : World) (namespace name : string) : list ptr :=
  filter (λ p, has_identity (heap w) namespace name p) (table w).

(** Every entry of the table points to a pod object (no nil entry). *)
Definition table_ok (w : World) : Prop :=
  Forall (λ p, is_Some (deref (heap w) p)) (table w).

(** The uniqueness invariant: at most one live record per identity. *)
Definition unique (w : World) : Prop :=
  ∀ namespace name, length (live w namespace name) ≤ 1.

(** What the registry reads through its table entries. *)
Definition records (w : World) : list (option v1.Pod) :=
  deref (heap w) <$> table w.

(** Reading through a status pointer. *)
Definition read_status (w : World) (sp : PodStatus_ptr) : option v1.PodStatus :=
  match sp with
  | Status_nil => None
  | Status_new s => Some s
  | Status_field l => v1.Status <$> heap w !! l
  end.

(** The value a computation returns, if it returns. *)
Definition answer {A} (m : Go A) (w : World) : option A :=
  match m w with
  | Returns a _ => Some a
  | Panics => None
  end.

(** ** Sequences of lifecycle operations *)

Inductive op :=
| Create (pod : ptr)
| Update (pod : ptr)
| Delete (pod : ptr).

Definition step (o : op) : Go (option error) :=
  match o with
  | Create pod => CreatePod pod
  | Update pod => UpdatePod pod
  | Delete pod => DeletePod pod
  end.

(** The caller issues the operations one after the other, whatever each
    one returns. *)
Fixpoint run (ops : list op) : Go unit :=
  match ops with
  | [] => ret tt
  | o :: ops' => step o;; run ops'
  end.

(** The process state right after [NewProvider]: an empty table, and the
    pod objects the callers are going to pass in. *)
Definition init (h : gmap loc v1.Pod) (clk : nat -> metav1.Time) : World :=
  {| provider := fst (NewProvider None "vk" "Linux"); heap := h;
     clock := clk; ticks := 0; logged := [] |}.

(** The world a computation leaves behind ([w] itself after a panic). *)
Definition after {A} (m : Go A) (w : World) : World :=
  match m w with
  | Returns _ w' => w'
  | Panics => w
  end.

(** ** Sample pods *)

Definition sample_pod (namespace name : string) (ann : gmap string string)
    (containers : list string) : v1.Pod :=
  {| v1.ObjectMeta :=
       {| metav1.Name := name; metav1.Namespace := namespace;
          metav1.Annotations := ann |};
     v1.Spec := {| v1.Containers := v1.mkContainer <$> containers |};
     v1.Status := v1.PodStatus_zero |}.

Definition web : v1.Pod :=
  sample_pod "default" "web" {[ "vk/PodIP" := "10.0.0.7" ]} ["nginx"].
Definition db : v1.Pod := sample_pod "default" "db" ∅ ["pg"; "exporter"].
Definition web' : v1.Pod := sample_pod "default" "web" ∅ ["nginx"; "sidecar"].

Definition sample_heap : gmap loc v1.Pod :=
  <[1%positive := web]> (<[2%positive := db]> (<[3%positive := web']> ∅)).

Definition w_empty : World := init sample_heap (λ n, Z.of_nat n).
Definition w_web : World := after (CreatePod (Some 1%positive)) w_empty.
Definition w_web_db : World := after (CreatePod (Some 2%positive)) w_web.

(** ** Notions used to state the claims *)

(** The status [CreatePod] builds for the container [c] at time [t]. *)
Definition running_status (c : v1.Container) (t : metav1.Time) : v1.ContainerStatus :=
  {| v1.ContainerStatus_Name := v1.Container_Name c;
     v1.State := {| v1.Waiting := None;
                    v1.Running := Some {| v1.StartedAt := t |};
                    v1.Terminated := None |};
     v1.Ready := true;
     v1.RestartCount := 0 |}.

(** The status [CreatePod] assigns to the pod [x] when called in [w]. *)
Definition synthesized_status (x : v1.Pod) (w : World) : v1.PodStatus :=
  {| v1.PodIP := map_index (Pod_Annotations x) "vk/PodIP";
     v1.Phase := v1.PodRunning;
     v1.Conditions :=
       [ {| v1.PodCondition_Type := v1.PodReady;
            v1.PodCondition_Status := v1.ConditionTrue |} ];
     v1.ContainerStatuses :=
       imap (λ i c, running_status c (clock w (ticks w + i)))
            (v1.Containers (v1.Spec x)) |}.

(** The world a successful [CreatePod] of the pod [x] at [l] leaves. *)
Definition created (l : loc) (x : v1.Pod) (w : World) : World :=
  with_table (table w ++ [Some l])
    (poke l (v1.set_Status (synthesized_status x w))
      (with_ticks (ticks w + length (v1.Containers (v1.Spec x)))
        (with_log (Log_CreatePod (Pod_Name x)) w))).

(** A sequence of operations on the sample pods. *)
Definition sample_ops : list op :=
  [ Create (Some 1%positive); Create (Some 3%positive); Update (Some 3%positive);
    Create (Some 2%positive); Delete (Some 3%positive); Create (Some 3%positive) ].

(** What [CreatePod] reports for one declared container: its name, running
    (and neither waiting nor terminated), ready, never restarted. *)
Definition reports_running (c : v1.Container) (cs : v1.ContainerStatus) : Prop :=
  v1.ContainerStatus_Name cs = v1.Container_Name c ∧
  is_Some (v1.Running (v1.State cs)) ∧
  v1.Waiting (v1.State cs) = None ∧
  v1.Terminated (v1.State cs) = None ∧
  v1.Ready cs = true ∧
  v1.RestartCount cs = 0%Z.

(** The part of a node condition that is not a timestamp. *)
Definition structure (c : v1.NodeCondition) : string * string * string * string :=
  (v1.NodeCondition_Type c, v1.NodeCondition_Status c, v1.Reason c, v1.Message c).

(** The last character of a message. *)
Fixpoint last_char (s : string) : option ascii :=
  match s with
  | EmptyString => None
  | String c s' =>
      match last_char s' with
      | None => Some c
      | Some c' => Some c'
      end
  end.

(** ** The log stub and whole call sequences *)

Module api.

(** [api.ContainerLogOpts]: the options of a log request; the provider
    never reads them. *)
Record ContainerLogOpts := mkContainerLogOpts {
  Tail : Z;
  Timestamps : bool;
  Follow : bool
}.

End api.

(** A [strings.Reader]: the string being read and the reading index. *)
Record Reader := mkReader {
  Reader_s : string;
  Reader_i : nat
}.

(** [strings.NewReader(s)] *)
Definition NewReader (s : string) : Reader := {| Reader_s := s; Reader_i := 0 |}.

(** An [io.ReadCloser] as [ioutil.NopCloser] makes it: the reader, with a
    [Close] that does nothing. *)
Inductive ReadCloser := NopCloser (r : Reader).

(** What is left to read. *)
Definition unread (rc : ReadCloser) : string :=
  match rc with
  | NopCloser r =>
      String.substring (Reader_i r)
        (String.length (Reader_s r) - Reader_i r) (Reader_s r)
  end.

Definition GetContainerLogs (namespace podName containerName : string)
    (opts : api.ContainerLogOpts) : Go (ReadCloser * option error) :=
  ret (NopCloser (NewReader ""), None).

(** The process state right after [NewProvider] with arbitrary arguments. *)
Definition boot (rm : option positive) (nodeName operatingSystem : string)
    (h : gmap loc v1.Pod) (clk : nat -> metav1.Time) : World :=
  {| provider := fst (NewProvider rm nodeName operatingSystem); heap := h;
     clock := clk; ticks := 0; logged := [] |}.

(** A call of any method of the provider. *)
Inductive call :=
| Call_CreatePod (pod : ptr)
| Call_UpdatePod (pod : ptr)
| Call_DeletePod (pod : ptr)
| Call_GetPod (namespace name : string)
| Call_GetContainerLogs (namespace podName containerName : string)
    (opts : api.ContainerLogOpts)
| Call_GetPodFullName (namespace pod : string)
| Call_RunInContainer (namespace name container : string) (cmd : list string)
| Call_GetPodStatus (namespace name : string)
| Call_GetPods
| Call_Capacity
| Call_NodeConditions
| Call_NodeAddresses
| Call_NodeDaemonEndpoints
| Call_OperatingSystem.

(** Making the call and dropping what it returns. *)
Definition exec (c : call) : Go unit :=
  match c with
  | Call_CreatePod pod => CreatePod pod;; ret tt
  | Call_UpdatePod pod => UpdatePod pod;; ret tt
  | Call_DeletePod pod => DeletePod pod;; ret tt
  | Call_GetPod namespace name => GetPod namespace name;; ret tt
  | Call_GetContainerLogs namespace podName containerName opts =>
      GetContainerLogs namespace podName containerName opts;; ret tt
  | Call_GetPodFullName namespace pod => GetPodFullName namespace pod;; ret tt
  | Call_RunInContainer namespace name container cmd =>
      RunInContainer namespace name container cmd;; ret tt
  | Call_GetPodStatus namespace name => GetPodStatus namespace name;; ret tt
  | Call_GetPods => GetPods;; ret tt
  | Call_Capacity => Capacity;; ret tt
  | Call_NodeConditions => NodeConditions;; ret tt
  | Call_NodeAddresses => NodeAddresses;; ret tt
  | Call_NodeDaemonEndpoints => NodeDaemonEndpoints;; ret tt
  | Call_OperatingSystem => OperatingSystem;; ret tt
  end.

Fixpoint run_calls (cs : list call) : Go unit :=
  match cs with
  | [] => ret tt
  | c :: cs' => exec c;; run_calls cs'
  end.

(** The calls that only compute an answer. *)
Definition read_only (c : call) : bool :=
  match c with
  | Call_CreatePod _ | Call_UpdatePod _ | Call_DeletePod _
  | Call_RunInContainer _ _ _ _ | Call_NodeConditions => false
  | _ => true
  end.

(** The Create and Delete calls of a sequence, in order. *)
Fixpoint lifecycle (cs : list call) : list op :=
  match cs with
  | [] => []
  | Call_CreatePod pod :: cs' => Create pod :: lifecycle cs'
  | Call_DeletePod pod :: cs' => Delete pod :: lifecycle cs'
  | _ :: cs' => lifecycle cs'
  end.

(** The pods handed to Create by a sequence of operations, in order. *)
Fixpoint create_args (ops : list op) : list ptr :=
  match ops with
  | [] => []
  | Create pod :: ops' => pod :: create_args ops'
  | _ :: ops' => create_args ops'
  end.

(** A pod object with the start times of its container statuses blanked. *)
Definition untimed_status (cs : v1.ContainerStatus) : v1.ContainerStatus :=
  {| v1.ContainerStatus_Name := v1.ContainerStatus_Name cs;
     v1.State :=
       {| v1.Waiting := v1.Waiting (v1.State cs);
          v1.Running := (λ _, {| v1.StartedAt := 0%Z |}) <$> v1.Running (v1.State cs);
          v1.Terminated := v1.Terminated (v1.State cs) |};
     v1.Ready := v1.Ready cs;
     v1.RestartCount := v1.RestartCount cs |}.

Definition untimed (x : v1.Pod) : v1.Pod :=
  v1.set_Status
    {| v1.Phase := v1.Phase (v1.Status x);
       v1.Conditions := v1.Conditions (v1.Status x);
       v1.PodIP := v1.PodIP (v1.Status x);
       v1.ContainerStatuses := untimed_status <$> v1.ContainerStatuses (v1.Status x) |}
    x.

(** The part of a pod object the orchestrator supplies. *)
Definition request (x : v1.Pod) : metav1.ObjectMeta * v1.PodSpec :=
  (v1.ObjectMeta x, v1.Spec x).

(** A string without the character [-]. *)
Fixpoint dash_free (s : string) : bool :=
  match s with
  | EmptyString => true
  | String c s' => negb (Ascii.eqb c "-"%char) && dash_free s'
  end.

(** The registry of web and db after a caller renamed the pod it got from
    Get of default/web to db. *)
Definition w_renamed : World := poke 1%positive (v1.set_Name "db") w_web_db.

(** A sequence of calls on the sample pods. *)
Definition sample_calls : list call :=
  [ Call_NodeConditions; Call_CreatePod (Some 1%positive);
    Call_GetPod "default" "web"; Call_UpdatePod (Some 3%positive);
    Call_RunInContainer "default" "web" "nginx" ["ls"];
    Call_CreatePod (Some 2%positive); Call_Capacity;
    Call_GetContainerLogs "default" "web" "nginx"
      {| api.Tail := 10; api.Timestamps := false; api.Follow := false |};
    Call_DeletePod (Some 3%positive); Call_GetPods;
    Call_CreatePod (Some 3%positive); Call_GetPodStatus "default" "db" ].

(** ** Basic facts about the loops *)

Lemma has_identity_true h namespace name p :
  has_identity h namespace name p = true ↔
  ∃ x, deref h p = Some x ∧ Pod_Name x = name ∧ Pod_Namespace x = namespace.
Proof.
  unfold has_identity, same_identity. destruct (deref h p) as [x|].
  - rewrite andb_true_iff, !bool_decide_eq_true. split.
    + intros [? ?]. by exists x.
    + by intros (? & [= <-] & ? & ?).
  - split; [done|]. by intros (? & ? & _).
Qed.

Lemma has_identity_deref h namespace name p x :
  deref h p = Some x →
  has_identity h namespace name p = same_identity x namespace name.
Proof. unfold has_identity. by intros ->. Qed.

Lemma GetPod_range_find rest namespace name w :
  Forall (λ p, is_Some (deref (heap w) p)) rest →
  GetPod_range rest namespace name w =
    Returns (match list_find (λ p, has_identity (heap w) namespace name p) rest with
             | Some (_, p) => (p, None)
             | None => (None, Some (NotFound name namespace))
             end) w.
Proof.
  induction 1 as [|p rest [x Hx] _ IH]; [done|].
  cbn [GetPod_range list_find]. unfold bind, load. rewrite Hx.
  rewrite (has_identity_deref _ _ _ _ _ Hx).
  destruct (same_identity x namespace name) eqn:E.
  - by rewrite decide_True.
  - rewrite decide_False by (by intros []). rewrite IH.
    by destruct (list_find _ rest) as [[]|].
Qed.

Lemma find_head_filter {A} (P : A → Prop) `{!∀ x, Decision (P x)} (l : list A) :
  snd <$> list_find P l = head (filter P l).
Proof.
  induction l as [|x l IH]; [done|].
  cbn [list_find]. rewrite filter_cons. destruct (decide (P x)); [done|].
  rewrite <- IH. by destruct (list_find P l) as [[]|].
Qed.

Lemma find_None_filter {A} (P : A → Prop) `{!∀ x, Decision (P x)} (l : list A) :
  list_find P l = None ↔ filter P l = [].
Proof.
  pose proof (find_head_filter P l) as Hhd.
  destruct (list_find P l) as [[]|], (filter P l); naive_solver.
Qed.

(** [GetPod] on a table without nil entries: the first live record with the
    identity, or the error; the world is left as it was. *)
Lemma GetPod_head w namespace name :
  table_ok w →
  GetPod namespace name w =
    Returns (match head (live w namespace name) with
             | Some p => (p, None)
             | None => (None, Some (NotFound name namespace))
             end) w.
Proof.
  intros Hok. unfold GetPod, bind, read_pods.
  rewrite GetPod_range_find by done. unfold live.
  rewrite <- find_head_filter. fold (table w).
  by destruct (list_find _ (table w)) as [[]|].
Qed.

Lemma with_ticks_same w : with_ticks (ticks w) w = w.
Proof. by destruct w. Qed.

Lemma CreatePod_range_imap rest acc w :
  CreatePod_range rest acc w =
    Returns (acc ++ imap (λ i c, running_status c (clock w (ticks w + i))) rest)
            (with_ticks (ticks w + length rest) w).
Proof.
  revert acc w. induction rest as [|c rest IH]; intros acc w.
  - cbn. rewrite app_nil_r, Nat.add_0_r, with_ticks_same. done.
  - cbn [CreatePod_range]. unfold bind, Now. rewrite IH. cbn.
    rewrite <- app_assoc, Nat.add_0_r. cbn. f_equal.
    + do 2 f_equal. apply imap_ext. intros i x _. cbn. do 2 f_equal. lia.
    + unfold with_ticks. cbn. f_equal. lia.
Qed.

Lemma CreatePod_fresh w l x :
  table_ok w →
  heap w !! l = Some x →
  live w (Pod_Namespace x) (Pod_Name x) = [] →
  CreatePod (Some l) w = Returns None (created l x w).
Proof.
  intros Hok Hx Hlive. unfold CreatePod, bind at 1, load. cbn [deref]. rewrite Hx.
  unfold bind at 1, log_print. unfold bind at 1.
  rewrite GetPod_head by done.
  change (live (with_log _ w)) with (live w). rewrite Hlive. cbn [head].
  unfold bind at 1. rewrite CreatePod_range_imap.
  unfold bind, modify, read_pods, write_pods, ret. cbn. rewrite Hx. done.
Qed.

Lemma CreatePod_taken w p x :
  table_ok w →
  deref (heap w) p = Some x →
  live w (Pod_Namespace x) (Pod_Name x) ≠ [] →
  CreatePod p w =
    Returns (Some (AlreadyExists (Pod_Name x) (Pod_Namespace x)))
            (with_log (Log_CreatePod (Pod_Name x)) w).
Proof.
  intros Hok Hx Hlive. unfold CreatePod, bind at 1, load. rewrite Hx.
  unfold bind at 1, log_print. unfold bind at 1.
  rewrite GetPod_head by done.
  change (live (with_log _ w)) with (live w).
  by destruct (live w _ _).
Qed.

Lemma CreatePod_nil p w : deref (heap w) p = None → CreatePod p w = Panics.
Proof. intros Hp. unfold CreatePod, bind, load. by rewrite Hp. Qed.

Lemma DeletePod_range_find pods pre rest namespace name w :
  pods = pre ++ rest →
  Forall (λ p, is_Some (deref (heap w) p)) rest →
  DeletePod_range pods rest (length pre) namespace name w =
    Returns tt
      (match list_find (λ p, has_identity (heap w) namespace name p) rest with
       | Some (i, _) => with_table (delete (length pre + i) pods) w
       | None => w
       end).
Proof.
  intros -> Hok. revert pre. induction Hok as [|p rest [x Hx] _ IH]; intros pre; [done|].
  cbn [DeletePod_range list_find]. unfold bind, load. rewrite Hx.
  rewrite (has_identity_deref _ _ _ _ _ Hx).
  destruct (same_identity x namespace name) eqn:E.
  - rewrite decide_True by done. unfold write_pods.
    by rewrite Nat.add_0_r, delete_take_drop.
  - rewrite decide_False by (by intros []).
    replace (pre ++ p :: rest) with ((pre ++ [p]) ++ rest) by (by rewrite <- app_assoc).
    replace (S (length pre)) with (length (pre ++ [p])) by (rewrite length_app; cbn; lia).
    rewrite IH. destruct (list_find _ rest) as [[i q]|]; [|done]. cbn.
    do 3 f_equal. rewrite length_app. cbn. lia.
Qed.

(** [DeletePod] on a table without nil entries: the first entry whose pod has
    the identity of the argument is dropped, if there is one. *)
Lemma DeletePod_find w p x :
  table_ok w →
  deref (heap w) p = Some x →
  DeletePod p w =
    Returns None
      (match list_find (λ q, has_identity (heap w) (Pod_Namespace x) (Pod_Name x) q)
                       (table w) with
       | Some (i, _) => with_table (delete i (table w)) w
       | None => w
       end).
Proof.
  intros Hok Hx. unfold DeletePod, bind at 1, load. rewrite Hx.
  unfold bind at 1, read_pods. unfold bind.
  rewrite (DeletePod_range_find _ [] (pods (provider w))) by done.
  done.
Qed.

Lemma DeletePod_nil p w : deref (heap w) p = None → DeletePod p w = Panics.
Proof. intros Hp. unfold DeletePod, bind, load. by rewrite Hp. Qed.

Lemma last_char_app s t :
  last_char (s +:+ t) =
    match last_char t with
    | None => last_char s
    | Some c => Some c
    end.
Proof.
  induction s as [|c s IH].
  - change (EmptyString +:+ t) with t. destruct (last_char t); reflexivity.
  - change (String c s +:+ t) with (String c (s +:+ t)).
    cbn [last_char]. rewrite IH. destruct (last_char t); reflexivity.
Qed.

(** The two errors of the provider never carry the same message. *)
Lemma AlreadyExists_NotFound name namespace name' namespace' :
  AlreadyExists name namespace ≠ NotFound name' namespace'.
Proof.
  unfold AlreadyExists, NotFound. intros [= Hmsg].
  apply (f_equal last_char) in Hmsg.
  rewrite !last_char_app in Hmsg. cbn in Hmsg. discriminate.
Qed.

(** ** The table invariants and their preservation *)

Lemma deref_alter f l h p :
  deref (alter f l h) p =
    if decide (p = Some l) then f <$> deref h p else deref h p.
Proof.
  destruct p as [l'|]; cbn; [|done]. rewrite lookup_alter.
  destruct (decide (l = l')) as [->|Hne].
  - by rewrite decide_True.
  - rewrite decide_False; [done|]. by intros [= ->].
Qed.

Lemma deref_alter_is_Some f l h p :
  is_Some (deref h p) → is_Some (deref (alter f l h) p).
Proof.
  intros [x Hx]. rewrite deref_alter, Hx. case_decide; cbn; eauto.
Qed.

(** Assigning the status of a pod object changes nobody's identity. *)
Lemma has_identity_alter_Status s l h namespace name p :
  has_identity (alter (v1.set_Status s) l h) namespace name p =
  has_identity h namespace name p.
Proof.
  unfold has_identity. rewrite deref_alter.
  case_decide; [|done]. by destruct (deref h p).
Qed.

Lemma live_created l x w namespace name :
  live (created l x w) namespace name =
    live w namespace name ++
    (if has_identity (heap w) namespace name (Some l) then [Some l] else []).
Proof.
  unfold live. cbn. rewrite filter_app. f_equal.
  - apply list_filter_iff. intros p. by rewrite has_identity_alter_Status.
  - rewrite filter_cons, filter_nil, has_identity_alter_Status.
    by destruct (has_identity (heap w) namespace name (Some l)).
Qed.

Lemma table_ok_created l x w :
  table_ok w → heap w !! l = Some x → table_ok (created l x w).
Proof.
  intros Hok Hx. unfold table_ok. cbn. apply Forall_app. split.
  - eapply Forall_impl; [exact Hok|]. intros p. apply deref_alter_is_Some.
  - apply Forall_singleton. apply deref_alter_is_Some. cbn. by rewrite Hx.
Qed.

Lemma unique_created l x w :
  unique w →
  heap w !! l = Some x →
  live w (Pod_Namespace x) (Pod_Name x) = [] →
  unique (created l x w).
Proof.
  intros Huniq Hx Hfresh namespace name. rewrite live_created.
  destruct (has_identity (heap w) namespace name (Some l)) eqn:E.
  - apply has_identity_true in E as (y & Hy & <- & <-). cbn in Hy.
    rewrite Hx in Hy. injection Hy as <-. by rewrite Hfresh.
  - rewrite app_nil_r. apply Huniq.
Qed.

(** Dropping the first entry that satisfies [P] drops the head of the
    entries that satisfy [P]. *)
Lemma filter_delete_find {A} (P : A → Prop) `{!∀ x, Decision (P x)}
    (l : list A) i x :
  list_find P l = Some (i, x) →
  filter P l = x :: filter P (delete i l).
Proof.
  revert i. induction l as [|y l IH]; intros i; [done|].
  cbn [list_find]. rewrite filter_cons. destruct (decide (P y)) as [Hy|Hy].
  - by intros [= <- <-].
  - destruct (list_find P l) as [[j z]|] eqn:E; [|done].
    intros [= <- <-]. change (delete (S j) (y :: l)) with (y :: delete j l).
    rewrite filter_cons, decide_False by done. by apply IH.
Qed.

(** Dropping an entry that does not satisfy [Q] leaves the entries that
    satisfy [Q] as they were. *)
Lemma filter_delete_other {A} (Q : A → Prop) `{!∀ x, Decision (Q x)}
    (l : list A) i x :
  l !! i = Some x → ¬ Q x → filter Q (delete i l) = filter Q l.
Proof.
  revert i. induction l as [|y l IH]; intros [|i] Hi Hx; try done.
  - injection Hi as ->. rewrite filter_cons, decide_False by done. done.
  - change (delete (S i) (y :: l)) with (y :: delete i l).
    rewrite !filter_cons. destruct (decide (Q y)); [f_equal|]; eauto.
Qed.

Lemma length_filter_delete {A} (Q : A → Prop) `{!∀ x, Decision (Q x)}
    (l : list A) i :
  length (filter Q (delete i l)) ≤ length (filter Q l).
Proof.
  revert i. induction l as [|y l IH]; intros [|i]; try done.
  - change (delete 0 (y :: l)) with l.
    rewrite filter_cons. destruct (decide (Q y)); cbn; lia.
  - change (delete (S i) (y :: l)) with (y :: delete i l).
    rewrite !filter_cons. destruct (decide (Q y)); cbn; [|done].
    specialize (IH i). lia.
Qed.

Lemma step_invariant o w r w' :
  table_ok w → unique w →
  step o w = Returns r w' →
  table_ok w' ∧ unique w'.
Proof.
  intros Hok Huniq. destruct o as [p|p|p]; cbn [step].
  - destruct (deref (heap w) p) as [x|] eqn:Hx;
      [|by rewrite CreatePod_nil].
    destruct (live w (Pod_Namespace x) (Pod_Name x)) eqn:Hlive.
    + destruct p as [l|]; [|done]. rewrite (CreatePod_fresh w l x) by done.
      intros [= <- <-]. eauto using table_ok_created, unique_created.
    + rewrite (CreatePod_taken w p x) by (done || by rewrite Hlive).
      by intros [= <- <-].
  - by intros [= <- <-].
  - destruct (deref (heap w) p) as [x|] eqn:Hx;
      [|by rewrite DeletePod_nil].
    rewrite (DeletePod_find w p x) by done.
    destruct (list_find _ (table w)) as [[i q]|]; intros [= <- <-]; [|done].
    split.
    + by apply Forall_delete.
    + intros namespace name. etrans; [apply length_filter_delete|apply Huniq].
Qed.

Lemma run_invariant ops w w' :
  table_ok w → unique w →
  run ops w = Returns tt w' →
  table_ok w' ∧ unique w'.
Proof.
  revert w. induction ops as [|o ops IH]; intros w Hok Huniq.
  - by intros [= <-].
  - cbn [run]. unfold bind. destruct (step o w) as [r w1|] eqn:Hstep; [|done].
    destruct (step_invariant _ _ _ _ Hok Huniq Hstep). eauto.
Qed.

Lemma init_invariant h clk : table_ok (init h clk) ∧ unique (init h clk).
Proof.
  split.
  - apply Forall_nil_2.
  - intros namespace name. cbn. lia.
Qed.

Lemma head_live_Some w namespace name p :
  table_ok w →
  head (live w namespace name) = Some p →
  ∃ l x i, p = Some l ∧ heap w !! l = Some x ∧ table w !! i = Some p ∧
           Pod_Name x = name ∧ Pod_Namespace x = namespace ∧
           ∀ j q, table w !! j = Some q → j < i →
                  has_identity (heap w) namespace name q = false.
Proof.
  intros Hok Hhd. unfold live in Hhd. rewrite <- find_head_filter in Hhd.
  destruct (list_find _ (table w)) as [[i q]|] eqn:Hfind; [|done].
  injection Hhd as ->. apply list_find_Some in Hfind as (Hi & Hp & Hleast).
  apply Is_true_true, has_identity_true in Hp as (x & Hx & Hname & Hns).
  destruct p as [l|]; [|done]. exists l, x, i. split_and!; try done.
  intros j q Hj Hlt. specialize (Hleast j q Hj Hlt).
  by destruct (has_identity (heap w) namespace name q).
Qed.

(** ** The claims *)

(** C1. Uniqueness: after any sequence of Create, Update and Delete
    operations issued on a registry that starts empty, at most one live
    record has any given identity (namespace, name), in the table and so in
    the list [GetPods] returns. *)
Theorem run_unique h clk ops w :
  run ops (init h clk) = Returns tt w →
  ∀ namespace name,
    length (live w namespace name) ≤ 1 ∧
    ∃ l, GetPods w = Returns (l, None) w ∧
         length (filter (λ p, has_identity (heap w) namespace name p) l) ≤ 1.
Proof.
  intros Hrun namespace name.
  destruct (init_invariant h clk) as [Hok Huniq].
  destruct (run_invariant _ _ _ Hok Huniq Hrun) as [_ Huniq'].
  split; [apply Huniq'|]. exists (table w). split; [done|apply Huniq'].
Qed.

Lemma run_unique_witness :
  let w := after (run sample_ops) w_empty in
  run sample_ops w_empty = Returns tt w ∧
  table w = [Some 2%positive; Some 3%positive] ∧
  ∀ namespace name,
    length (live w namespace name) ≤ 1 ∧
    ∃ l, GetPods w = Returns (l, None) w ∧
         length (filter (λ p, has_identity (heap w) namespace name p) l) ≤ 1.
Proof.
  assert (Hrun : run sample_ops w_empty
                 = Returns tt (after (run sample_ops) w_empty))
    by (vm_compute; reflexivity).
  split; [exact Hrun|]. split; [vm_compute; reflexivity|].
  exact (run_unique sample_heap (λ n, Z.of_nat n) sample_ops _ Hrun).
Defined.

(** C2. Duplicate rejection: when a live record with the identity of the
    pod passed to Create is already in the registry, Create fails with the
    AlreadyExists error and leaves the table and the pod objects as they
    were; the table still holds exactly one record of that identity. *)
Theorem CreatePod_duplicate w p x :
  table_ok w → unique w →
  deref (heap w) p = Some x →
  live w (Pod_Namespace x) (Pod_Name x) ≠ [] →
  ∃ w', CreatePod p w =
          Returns (Some (AlreadyExists (Pod_Name x) (Pod_Namespace x))) w' ∧
        table w' = table w ∧ heap w' = heap w ∧
        length (live w' (Pod_Namespace x) (Pod_Name x)) = 1.
Proof.
  intros Hok Huniq Hx Hlive. eexists. split; [by apply CreatePod_taken|].
  split_and!; try done.
  change (live (with_log _ w)) with (live w).
  specialize (Huniq (Pod_Namespace x) (Pod_Name x)).
  destruct (live w (Pod_Namespace x) (Pod_Name x)) as [|? [|]]; cbn in *; done || lia.
Qed.

Lemma reachable_invariant h clk ops w :
  run ops (init h clk) = Returns tt w → table_ok w ∧ unique w.
Proof.
  destruct (init_invariant h clk). by apply run_invariant.
Qed.

Lemma w_web_invariant : table_ok w_web ∧ unique w_web.
Proof.
  apply (reachable_invariant sample_heap (λ n, Z.of_nat n)
           [Create (Some 1%positive)]).
  vm_compute. reflexivity.
Qed.

Lemma w_web_db_invariant : table_ok w_web_db ∧ unique w_web_db.
Proof.
  apply (reachable_invariant sample_heap (λ n, Z.of_nat n)
           [Create (Some 1%positive); Create (Some 2%positive)]).
  vm_compute. reflexivity.
Qed.

Lemma CreatePod_duplicate_witness :
  table_ok w_web ∧ unique w_web ∧
  deref (heap w_web) (Some 3%positive) = Some web' ∧
  live w_web "default" "web" ≠ [] ∧
  ∃ w', CreatePod (Some 3%positive) w_web =
          Returns (Some (AlreadyExists "web" "default")) w' ∧
        table w' = table w_web ∧ heap w' = heap w_web ∧
        length (live w' "default" "web") = 1.
Proof.
  destruct w_web_invariant as [Hok Huniq].
  assert (Hx : deref (heap w_web) (Some 3%positive) = Some web')
    by (vm_compute; reflexivity).
  assert (Hlive : live w_web (Pod_Namespace web') (Pod_Name web') ≠ [])
    by (vm_compute; discriminate).
  split_and!; try done.
  exact (CreatePod_duplicate w_web (Some 3%positive) web' Hok Huniq Hx Hlive).
Defined.

Lemma Forall2_imap {A B} (R : A → B → Prop) (f : nat → A → B) (l : list A) :
  (∀ i x, l !! i = Some x → R x (f i x)) → Forall2 R l (imap f l).
Proof.
  revert f. induction l as [|x l IH]; intros f Hf; cbn; constructor.
  - by apply (Hf 0).
  - apply IH. intros i y Hy. by apply (Hf (S i)).
Qed.

Lemma heap_created l x w :
  heap w !! l = Some x →
  heap (created l x w) !! l = Some (v1.set_Status (synthesized_status x w) x).
Proof. intros Hx. cbn. by rewrite lookup_alter_eq, Hx. Qed.

Lemma GetPod_created l x w :
  table_ok w →
  heap w !! l = Some x →
  live w (Pod_Namespace x) (Pod_Name x) = [] →
  GetPod (Pod_Namespace x) (Pod_Name x) (created l x w) =
    Returns (Some l, None) (created l x w).
Proof.
  intros Hok Hx Hfresh. rewrite GetPod_head by by apply table_ok_created.
  rewrite live_created, Hfresh.
  rewrite (has_identity_deref _ _ _ (Some l) x) by done.
  unfold same_identity. by rewrite !bool_decide_eq_true_2.
Qed.

(** C3. Create-then-get: for a pod whose identity is not yet in the
    registry, Create succeeds and the following Get of that identity
    returns the record, whose status has phase Running, exactly one
    condition, Ready with status True, and one container status per
    declared container, in the same order, carrying the container's name,
    marked running and ready, with restart count 0. *)
Theorem CreatePod_then_GetPod w l x :
  table_ok w →
  heap w !! l = Some x →
  live w (Pod_Namespace x) (Pod_Name x) = [] →
  ∃ w' x',
    CreatePod (Some l) w = Returns None w' ∧
    GetPod (Pod_Namespace x) (Pod_Name x) w' = Returns (Some l, None) w' ∧
    heap w' !! l = Some x' ∧
    v1.ObjectMeta x' = v1.ObjectMeta x ∧
    v1.Spec x' = v1.Spec x ∧
    v1.Phase (v1.Status x') = v1.PodRunning ∧
    v1.Conditions (v1.Status x') =
      [ {| v1.PodCondition_Type := v1.PodReady;
           v1.PodCondition_Status := v1.ConditionTrue |} ] ∧
    Forall2 reports_running (v1.Containers (v1.Spec x))
                            (v1.ContainerStatuses (v1.Status x')).
Proof.
  intros Hok Hx Hfresh.
  exists (created l x w), (v1.set_Status (synthesized_status x w) x).
  split_and!; try done.
  - by apply CreatePod_fresh.
  - by apply GetPod_created.
  - by apply heap_created.
  - cbn. apply Forall2_imap. intros i c _. by repeat split.
Qed.

Lemma CreatePod_then_GetPod_witness :
  table_ok w_web ∧
  heap w_web !! 2%positive = Some db ∧
  live w_web "default" "db" = [] ∧
  ∃ w' x',
    CreatePod (Some 2%positive) w_web = Returns None w' ∧
    GetPod "default" "db" w' = Returns (Some 2%positive, None) w' ∧
    heap w' !! 2%positive = Some x' ∧
    v1.ObjectMeta x' = v1.ObjectMeta db ∧
    v1.Spec x' = v1.Spec db ∧
    v1.Phase (v1.Status x') = v1.PodRunning ∧
    v1.Conditions (v1.Status x') =
      [ {| v1.PodCondition_Type := v1.PodReady;
           v1.PodCondition_Status := v1.ConditionTrue |} ] ∧
    Forall2 reports_running [v1.mkContainer "pg"; v1.mkContainer "exporter"]
                            (v1.ContainerStatuses (v1.Status x')).
Proof.
  destruct w_web_invariant as [Hok _].
  assert (Hx : heap w_web !! 2%positive = Some db) by (vm_compute; reflexivity).
  assert (Hfresh : live w_web (Pod_Namespace db) (Pod_Name db) = [])
    by (vm_compute; reflexivity).
  split_and!; try done.
  exact (CreatePod_then_GetPod w_web 2%positive db Hok Hx Hfresh).
Defined.

(** C4. Delete always returns success.  When no live record has the
    identity, the table is left unchanged; when one has, exactly the
    matching record (the first one in table order) is removed and every
    other entry stays, in order: no record of that identity is left in a
    table that satisfied uniqueness, and the records of all other
    identities are the same as before. *)
Theorem DeletePod_removes_exactly w p x :
  table_ok w →
  deref (heap w) p = Some x →
  ∃ w',
    DeletePod p w = Returns None w' ∧
    heap w' = heap w ∧
    (live w (Pod_Namespace x) (Pod_Name x) = [] → table w' = table w) ∧
    (∀ i q,
       table w !! i = Some q →
       has_identity (heap w) (Pod_Namespace x) (Pod_Name x) q = true →
       (∀ j q', table w !! j = Some q' → j < i →
          has_identity (heap w) (Pod_Namespace x) (Pod_Name x) q' = false) →
       table w' = delete i (table w)) ∧
    (unique w → live w' (Pod_Namespace x) (Pod_Name x) = []) ∧
    (∀ namespace name,
       (namespace, name) ≠ (Pod_Namespace x, Pod_Name x) →
       live w' namespace name = live w namespace name).
Proof.
  intros Hok Hx. eexists. split; [by apply DeletePod_find|].
  destruct (list_find _ (table w)) as [[i q]|] eqn:Hfind.
  - split; [done|]. split_and!.
    + intros Hnil. apply find_None_filter in Hnil. congruence.
    + intros i' q' Hi' Hq' Hleast.
      assert (Hfind' : list_find
                (λ q, has_identity (heap w) (Pod_Namespace x) (Pod_Name x) q)
                (table w) = Some (i', q')).
      { apply list_find_Some. split_and!; [done|rewrite Hq'; exact I|].
        intros j y Hj Hlt. rewrite (Hleast j y Hj Hlt). intros []. }
      rewrite Hfind in Hfind'. by injection Hfind' as <- <-.
    + intros Huniq. specialize (Huniq (Pod_Namespace x) (Pod_Name x)).
      unfold live in *. cbn. fold (table w).
      rewrite (filter_delete_find _ _ _ _ Hfind) in Huniq. cbn in Huniq.
      destruct (filter _ (delete i (table w))) eqn:E; [done|]. cbn in Huniq. lia.
    + intros namespace name Hne. unfold live. cbn. fold (table w).
      apply list_find_Some in Hfind as (Hi & Hq & _).
      apply (filter_delete_other _ _ _ _ Hi).
      intros Hq'. apply Hne.
      apply Is_true_true, has_identity_true in Hq as (y & Hy & <- & <-).
      apply Is_true_true, has_identity_true in Hq' as (y' & Hy' & <- & <-).
      congruence.
  - split; [done|]. split_and!; try done.
    + intros i q Hi Hq _. apply list_find_None in Hfind.
      rewrite Forall_lookup in Hfind. destruct (Hfind i q Hi). by rewrite Hq.
    + intros _. by apply find_None_filter.
Qed.

Lemma DeletePod_removes_exactly_witness :
  table_ok w_web_db ∧
  deref (heap w_web_db) (Some 3%positive) = Some web' ∧
  ∃ w',
    DeletePod (Some 3%positive) w_web_db = Returns None w' ∧
    heap w' = heap w_web_db ∧
    (live w_web_db "default" "web" = [] → table w' = table w_web_db) ∧
    (∀ i q,
       table w_web_db !! i = Some q →
       has_identity (heap w_web_db) "default" "web" q = true →
       (∀ j q', table w_web_db !! j = Some q' → j < i →
          has_identity (heap w_web_db) "default" "web" q' = false) →
       table w' = delete i (table w_web_db)) ∧
    (unique w_web_db → live w' "default" "web" = []) ∧
    (∀ namespace name,
       (namespace, name) ≠ ("default", "web") →
       live w' namespace name = live w_web_db namespace name).
Proof.
  destruct w_web_db_invariant as [Hok _].
  assert (Hx : deref (heap w_web_db) (Some 3%positive) = Some web')
    by (vm_compute; reflexivity).
  split_and!; try done.
  exact (DeletePod_removes_exactly w_web_db (Some 3%positive) web' Hok Hx).
Defined.

Lemma GetPod_range_frame rest namespace name w w' :
  heap w' = heap w →
  GetPod_range rest namespace name w' =
    match GetPod_range rest namespace name w with
    | Returns r _ => Returns r w'
    | Panics => Panics
    end.
Proof.
  intros Hheap. induction rest as [|p rest IH]; [done|].
  cbn [GetPod_range]. unfold bind, load. rewrite Hheap.
  destruct (deref (heap w) p) as [x|]; [|done].
  by destruct (same_identity x namespace name).
Qed.

(** [GetPod] and [GetPodStatus] depend on the table and the pod objects
    only, and leave the world as it was. *)
Lemma GetPod_frame namespace name w w' :
  table w' = table w → heap w' = heap w →
  GetPod namespace name w' =
    match GetPod namespace name w with
    | Returns r _ => Returns r w'
    | Panics => Panics
    end.
Proof.
  intros Htable Hheap. unfold GetPod, bind, read_pods.
  fold (table w) (table w'). rewrite Htable.
  by apply GetPod_range_frame.
Qed.

Lemma GetPod_answer_frame namespace name w w' :
  table w' = table w → heap w' = heap w →
  answer (GetPod namespace name) w' = answer (GetPod namespace name) w.
Proof.
  intros Htable Hheap. unfold answer.
  rewrite (GetPod_frame _ _ w w') by done.
  by destruct (GetPod namespace name w).
Qed.

Lemma GetPodStatus_answer_frame namespace name w w' :
  table w' = table w → heap w' = heap w →
  answer (GetPodStatus namespace name) w' =
  answer (GetPodStatus namespace name) w.
Proof.
  intros Htable Hheap. unfold answer, GetPodStatus, bind.
  rewrite (GetPod_frame _ _ w w') by done.
  destruct (GetPod namespace name w) as [[q [e|]] v|]; try done.
  by destruct q.
Qed.

(** C5. Update is a no-op: whatever the registry state and the argument, it
    succeeds and leaves the table and the pod objects as they were, so Get
    and GetStatus answer after it exactly as they would have before, with
    the records unchanged. *)
Theorem UpdatePod_noop w p :
  ∃ w',
    UpdatePod p w = Returns None w' ∧
    table w' = table w ∧
    heap w' = heap w ∧
    records w' = records w ∧
    ∀ namespace name,
      answer (GetPod namespace name) w' = answer (GetPod namespace name) w ∧
      answer (GetPodStatus namespace name) w' =
        answer (GetPodStatus namespace name) w.
Proof.
  exists (with_log Log_UpdatePod w). split_and!; try done.
  intros namespace name. split.
  - by apply GetPod_answer_frame.
  - by apply GetPodStatus_answer_frame.
Qed.

Lemma GetPodStatus_absent_eq w namespace name :
  table_ok w →
  live w namespace name = [] →
  GetPodStatus namespace name w =
    Returns (Status_new v1.PodStatus_zero, Some (NotFound name namespace)) w.
Proof.
  intros Hok Hnil. unfold GetPodStatus, bind.
  by rewrite GetPod_head, Hnil.
Qed.

Lemma GetPodStatus_present_eq w namespace name l :
  table_ok w →
  head (live w namespace name) = Some (Some l) →
  GetPodStatus namespace name w = Returns (Status_field l, None) w.
Proof.
  intros Hok Hhd. unfold GetPodStatus, bind.
  by rewrite GetPod_head, Hhd.
Qed.

(** C6. Get fails with NotFound exactly when no live record has the
    identity; otherwise it returns the matching record (the first in table
    order).  GetStatus fails with NotFound under the same condition, and
    otherwise returns the status field of the record Get returns. *)
Theorem GetPod_NotFound_iff w namespace name :
  table_ok w →
  (live w namespace name = [] ∧
   GetPod namespace name w =
     Returns (None, Some (NotFound name namespace)) w ∧
   ∃ sp, GetPodStatus namespace name w =
           Returns (sp, Some (NotFound name namespace)) w)
  ∨
  (∃ l x i,
     live w namespace name ≠ [] ∧
     table w !! i = Some (Some l) ∧
     heap w !! l = Some x ∧
     Pod_Name x = name ∧ Pod_Namespace x = namespace ∧
     (∀ j q, table w !! j = Some q → j < i →
        has_identity (heap w) namespace name q = false) ∧
     GetPod namespace name w = Returns (Some l, None) w ∧
     ∃ sp, GetPodStatus namespace name w = Returns (sp, None) w ∧
           read_status w sp = Some (v1.Status x)).
Proof.
  intros Hok. destruct (head (live w namespace name)) as [p|] eqn:Hhd.
  - right.
    destruct (head_live_Some _ _ _ _ Hok Hhd)
      as (l & x & i & -> & Hx & Hi & Hname & Hns & Hleast).
    exists l, x, i. split_and!; try done.
    + by destruct (live w namespace name).
    + by rewrite GetPod_head, Hhd.
    + exists (Status_field l). split; [by apply GetPodStatus_present_eq|].
      cbn. by rewrite Hx.
  - left. assert (Hnil : live w namespace name = [])
      by by destruct (live w namespace name).
    split_and!; [done| |].
    + by rewrite GetPod_head, Hhd.
    + eexists. by apply GetPodStatus_absent_eq.
Qed.

Lemma GetPod_NotFound_iff_witness :
  table_ok w_web_db ∧
  ((live w_web_db "default" "db" = [] ∧
    GetPod "default" "db" w_web_db =
      Returns (None, Some (NotFound "db" "default")) w_web_db ∧
    ∃ sp, GetPodStatus "default" "db" w_web_db =
            Returns (sp, Some (NotFound "db" "default")) w_web_db)
   ∨
   (∃ l x i,
      live w_web_db "default" "db" ≠ [] ∧
      table w_web_db !! i = Some (Some l) ∧
      heap w_web_db !! l = Some x ∧
      Pod_Name x = "db" ∧ Pod_Namespace x = "default" ∧
      (∀ j q, table w_web_db !! j = Some q → j < i →
         has_identity (heap w_web_db) "default" "db" q = false) ∧
      GetPod "default" "db" w_web_db = Returns (Some l, None) w_web_db ∧
      ∃ sp, GetPodStatus "default" "db" w_web_db = Returns (sp, None) w_web_db ∧
            read_status w_web_db sp = Some (v1.Status x))).
Proof.
  destruct w_web_db_invariant as [Hok _].
  split; [done|].
  exact (GetPod_NotFound_iff w_web_db "default" "db" Hok).
Defined.

(** C7. On a successful Create the record's pod IP is the value of the
    annotation "vk/PodIP" of the incoming pod, whatever that value is, and
    the empty string when the pod has no such annotation. *)
Theorem CreatePod_PodIP w l x :
  table_ok w →
  heap w !! l = Some x →
  live w (Pod_Namespace x) (Pod_Name x) = [] →
  ∃ w' x',
    CreatePod (Some l) w = Returns None w' ∧
    heap w' !! l = Some x' ∧
    (∀ ip, Pod_Annotations x !! "vk/PodIP" = Some ip →
           v1.PodIP (v1.Status x') = ip) ∧
    (Pod_Annotations x !! "vk/PodIP" = None → v1.PodIP (v1.Status x') = "").
Proof.
  intros Hok Hx Hfresh.
  exists (created l x w), (v1.set_Status (synthesized_status x w) x).
  split_and!.
  - by apply CreatePod_fresh.
  - by apply heap_created.
  - intros ip Hip. cbn. unfold map_index. by rewrite Hip.
  - intros Hip. cbn. unfold map_index. by rewrite Hip.
Qed.

Lemma CreatePod_PodIP_witness :
  table_ok w_empty ∧
  heap w_empty !! 1%positive = Some web ∧
  live w_empty "default" "web" = [] ∧
  ∃ w' x',
    CreatePod (Some 1%positive) w_empty = Returns None w' ∧
    heap w' !! 1%positive = Some x' ∧
    (∀ ip, Pod_Annotations web !! "vk/PodIP" = Some ip →
           v1.PodIP (v1.Status x') = ip) ∧
    (Pod_Annotations web !! "vk/PodIP" = None → v1.PodIP (v1.Status x') = "").
Proof.
  assert (Hok : table_ok w_empty) by apply Forall_nil_2.
  assert (Hx : heap w_empty !! 1%positive = Some web) by (vm_compute; reflexivity).
  assert (Hfresh : live w_empty (Pod_Namespace web) (Pod_Name web) = [])
    by reflexivity.
  split_and!; try done.
  exact (CreatePod_PodIP w_empty 1%positive web Hok Hx Hfresh).
Defined.

(** C8. Capacity and NodeConditions do not depend on the pod table: in
    every world Capacity is the triple cpu 20, memory 100Gi, pods 20, and
    NodeConditions is the list of five conditions Ready (True), OutOfDisk,
    MemoryPressure, DiskPressure and NetworkUnavailable (all False) with
    their fixed reasons and messages; only the timestamps vary, each being
    a reading of the clock taken during the call.  Neither call touches the
    table or the pod objects. *)
Theorem node_status_independent w :
  ∃ cap conds w',
    Capacity w = Returns cap w ∧
    cap !! "cpu" = Some (resource.MustParse "20") ∧
    cap !! "memory" = Some (resource.MustParse "100Gi") ∧
    cap !! "pods" = Some (resource.MustParse "20") ∧
    size cap = 3 ∧
    NodeConditions w = Returns conds w' ∧
    structure <$> conds =
      [ ("Ready", "True", "KubeletReady", "kubelet is ready.");
        ("OutOfDisk", "False", "KubeletHasSufficientDisk",
         "kubelet has sufficient disk space available");
        ("MemoryPressure", "False", "KubeletHasSufficientMemory",
         "kubelet has sufficient memory available");
        ("DiskPressure", "False", "KubeletHasNoDiskPressure",
         "kubelet has no disk pressure");
        ("NetworkUnavailable", "False", "RouteCreated",
         "RouteController created a route") ] ∧
    (∀ i c, conds !! i = Some c →
       v1.LastHeartbeatTime c = clock w (ticks w + 2 * i) ∧
       v1.LastTransitionTime c = clock w (ticks w + 2 * i + 1)) ∧
    table w' = table w ∧ heap w' = heap w.
Proof.
  eexists _, _, _. split; [reflexivity|].
  split; [by vm_compute|]. split; [by vm_compute|]. split; [by vm_compute|].
  split; [by vm_compute|].
  split; [reflexivity|]. split; [reflexivity|]. split; [|done].
  intros i c Hc.
  do 5 (destruct i as [|i];
        [injection Hc as <-; cbn; split; f_equal; lia|]).
  done.
Qed.

(** C10. When no record has the identity, GetStatus returns, next to the
    NotFound error, a pointer to a new zero-valued pod status, not nil. *)
Theorem GetPodStatus_absent w namespace name :
  table_ok w →
  live w namespace name = [] →
  ∃ sp,
    GetPodStatus namespace name w =
      Returns (sp, Some (NotFound name namespace)) w ∧
    sp ≠ Status_nil ∧
    sp = Status_new v1.PodStatus_zero ∧
    read_status w sp = Some v1.PodStatus_zero.
Proof.
  intros Hok Hnil. exists (Status_new v1.PodStatus_zero).
  split; [by apply GetPodStatus_absent_eq|done].
Qed.

Lemma GetPodStatus_absent_witness :
  table_ok w_web ∧
  live w_web "default" "db" = [] ∧
  ∃ sp,
    GetPodStatus "default" "db" w_web =
      Returns (sp, Some (NotFound "db" "default")) w_web ∧
    sp ≠ Status_nil ∧
    sp = Status_new v1.PodStatus_zero ∧
    read_status w_web sp = Some v1.PodStatus_zero.
Proof.
  destruct w_web_invariant as [Hok _].
  assert (Hnil : live w_web "default" "db" = []) by (vm_compute; reflexivity).
  split_and!; try done.
  exact (GetPodStatus_absent w_web "default" "db" Hok Hnil).
Defined.

(** C9 as stated does not hold.  In the registry holding the pods
    default/web and default/db, Get of default/web returns the very pointer
    the table holds, and List returns the table's pointers.  When the caller
    renames the pod through the pointer it received, the registry's records
    change and two live records carry the identity default/db. *)
Lemma GetPod_alias_breaks_unique :
  GetPod "default" "web" w_web_db = Returns (Some 1%positive, None) w_web_db ∧
  GetPods w_web_db =
    Returns ([Some 1%positive; Some 2%positive], None) w_web_db ∧
  unique w_web_db ∧
  records (poke 1%positive (v1.set_Name "db") w_web_db) ≠ records w_web_db ∧
  ¬ unique (poke 1%positive (v1.set_Name "db") w_web_db).
Proof.
  split_and!.
  - vm_compute. reflexivity.
  - vm_compute. reflexivity.
  - apply w_web_db_invariant.
  - intros Heq.
    apply (f_equal (λ r, Pod_Name <$> (r !! 0 ≫= id))) in Heq.
    vm_compute in Heq. discriminate.
  - intros Huniq. specialize (Huniq "default" "db").
    vm_compute in Huniq. lia.
Qed.

(** C9, amended.  Get returns the pointer the table itself holds and List
    returns the table's own pointers, so the caller receives an alias of
    the registry's pod object.  A write through a pointer returned by Get is
    seen by the registry: every table entry holding that pointer then reads
    the written pod, and the entries holding other pointers read as before. *)
Theorem GetPod_returns_table_pointer w namespace name l :
  table_ok w →
  answer (GetPod namespace name) w = Some (Some l, None) →
  Some l ∈ table w ∧
  GetPods w = Returns (table w, None) w ∧
  ∀ f, records (poke l f w) =
       (λ p, if decide (p = Some l)
             then f <$> deref (heap w) p
             else deref (heap w) p) <$> table w.
Proof.
  intros Hok Hget. unfold answer in Hget. rewrite GetPod_head in Hget by done.
  destruct (head (live w namespace name)) as [p|] eqn:Hhd; [|done].
  injection Hget as ->.
  destruct (head_live_Some _ _ _ _ Hok Hhd) as (? & ? & i & _ & _ & Hi & _).
  split_and!.
  - by eapply list_elem_of_lookup_2.
  - done.
  - intros f. unfold records. cbn. apply list_fmap_ext.
    intros j p _. apply deref_alter.
Qed.

Lemma GetPod_returns_table_pointer_witness :
  table_ok w_web_db ∧
  answer (GetPod "default" "web") w_web_db = Some (Some 1%positive, None) ∧
  Some 1%positive ∈ table w_web_db ∧
  GetPods w_web_db = Returns (table w_web_db, None) w_web_db ∧
  ∀ f, records (poke 1%positive f w_web_db) =
       (λ p, if decide (p = Some 1%positive)
             then f <$> deref (heap w_web_db) p
             else deref (heap w_web_db) p) <$> table w_web_db.
Proof.
  destruct w_web_db_invariant as [Hok _].
  assert (Hget : answer (GetPod "default" "web") w_web_db
                 = Some (Some 1%positive, None)) by (vm_compute; reflexivity).
  split; [exact Hok|]. split; [exact Hget|].
  exact (GetPod_returns_table_pointer w_web_db "default" "web" 1%positive Hok Hget).
Defined.

(** ** The end-to-end scenario of the specification

    Create default/web with the container nginx; GetStatus reports phase
    Running and one container status nginx, ready, never restarted; after
    Delete, Get fails with NotFound. *)
Example end_to_end :
  ∃ w1 w2 x,
    CreatePod (Some 1%positive) w_empty = Returns None w1 ∧
    GetPodStatus "default" "web" w1 = Returns (Status_field 1%positive, None) w1 ∧
    heap w1 !! 1%positive = Some x ∧
    v1.Phase (v1.Status x) = "Running" ∧
    (λ cs, (v1.ContainerStatus_Name cs, v1.Ready cs, v1.RestartCount cs))
      <$> v1.ContainerStatuses (v1.Status x) = [("nginx", true, 0%Z)] ∧
    DeletePod (Some 1%positive) w1 = Returns None w2 ∧
    GetPod "default" "web" w2 =
      Returns (None, Some (NotFound "web" "default")) w2.
Proof.
  eexists _, _, _. split_and!; vm_compute; reflexivity.
Qed.

(** ** What a returning call tells: inversion of the methods

    These facts need no assumption on the world: a call that returned has
    met no nil entry on its way. *)

Lemma GetPod_range_inv rest namespace name w q e w' :
  GetPod_range rest namespace name w = Returns (q, e) w' →
  w' = w ∧
  ((e = None ∧ q ∈ rest ∧ has_identity (heap w) namespace name q = true) ∨
   (e = Some (NotFound name namespace) ∧ q = None ∧
    Forall (λ p, is_Some (deref (heap w) p)) rest ∧
    filter (λ p, has_identity (heap w) namespace name p) rest = [])).
Proof.
  induction rest as [|p rest IH]; cbn [GetPod_range].
  - intros [= <- <- <-]. split; [done|]. right. by rewrite filter_nil.
  - unfold bind, load. destruct (deref (heap w) p) as [x|] eqn:Hx; [|done].
    destruct (same_identity x namespace name) eqn:Hid.
    + intros [= <- <- <-]. split; [done|]. left. split_and!; [done|left|].
      by rewrite (has_identity_deref _ _ _ _ _ Hx).
    + intros Hrest. destruct (IH Hrest) as [-> [(-> & Hq & Hq') | (-> & -> & Hok & Hnil)]].
      * split; [done|]. left. split_and!; [done|by right|done].
      * split; [done|]. right. split_and!; [done..| |].
        -- constructor; [by rewrite Hx|done].
        -- rewrite filter_cons, decide_False; [done|].
           rewrite (has_identity_deref _ _ _ _ _ Hx), Hid. intros [].
Qed.

Lemma GetPod_inv namespace name w q e w' :
  GetPod namespace name w = Returns (q, e) w' →
  w' = w ∧
  ((e = None ∧ q ∈ table w ∧ has_identity (heap w) namespace name q = true) ∨
   (e = Some (NotFound name namespace) ∧ q = None ∧
    table_ok w ∧ live w namespace name = [])).
Proof. unfold GetPod, bind, read_pods. apply GetPod_range_inv. Qed.

Lemma live_not_nil w namespace name q :
  q ∈ table w → has_identity (heap w) namespace name q = true →
  live w namespace name ≠ [].
Proof.
  intros Hq Hid Hnil. unfold live in Hnil.
  assert (Hin : q ∈ filter (λ p, has_identity (heap w) namespace name p) (table w)).
  { apply list_elem_of_filter. split; [|done]. rewrite Hid. exact I. }
  rewrite Hnil in Hin. by apply not_elem_of_nil in Hin.
Qed.

Lemma CreatePod_inv p w r w' :
  CreatePod p w = Returns r w' →
  ∃ x, deref (heap w) p = Some x ∧
    ((r = Some (AlreadyExists (Pod_Name x) (Pod_Namespace x)) ∧
      live w (Pod_Namespace x) (Pod_Name x) ≠ [] ∧
      w' = with_log (Log_CreatePod (Pod_Name x)) w) ∨
     (r = None ∧ table_ok w ∧
      live w (Pod_Namespace x) (Pod_Name x) = [] ∧
      ∃ l, p = Some l ∧ w' = created l x w)).
Proof.
  intros Hcreate. pose proof Hcreate as Hrun.
  destruct (deref (heap w) p) as [x|] eqn:Hx; [|by rewrite CreatePod_nil in Hrun].
  exists x. split; [done|].
  unfold CreatePod, bind at 1, load in Hrun. rewrite Hx in Hrun.
  unfold bind at 1, log_print in Hrun. unfold bind at 1 in Hrun.
  destruct (GetPod _ _ (with_log _ w)) as [[q e] w1|] eqn:Hget; [|done].
  apply GetPod_inv in Hget as [-> [(-> & Hq & Hid) | (-> & -> & Hok & Hnil)]].
  - left. injection Hrun as <- <-. split_and!; [done| |done].
    by apply (live_not_nil w _ _ q).
  - right. change (table_ok w) in Hok.
    change (live w (Pod_Namespace x) (Pod_Name x) = []) in Hnil.
    destruct p as [l|]; [|done].
    rewrite (CreatePod_fresh w l x) in Hcreate by done.
    injection Hcreate as <- <-. split_and!; try done. by exists l.
Qed.

Lemma DeletePod_range_inv pods rest index namespace name w w' :
  DeletePod_range pods rest index namespace name w = Returns tt w' →
  w' = w ∨ w' = with_table (delete index pods) w ∨
  ∃ i, w' = with_table (delete i pods) w.
Proof.
  revert index. induction rest as [|p rest IH]; intros index; cbn [DeletePod_range].
  - intros [= <-]. by left.
  - unfold bind, load. destruct (deref (heap w) p) as [x|]; [|done].
    destruct (same_identity x namespace name).
    + unfold write_pods. intros [= <-]. right. right. exists index.
      by rewrite delete_take_drop.
    + intros Hrest. destruct (IH _ Hrest) as [?|[?|?]]; eauto.
Qed.

Lemma DeletePod_inv p w r w' :
  DeletePod p w = Returns r w' →
  r = None ∧ is_Some (deref (heap w) p) ∧
  (w' = w ∨ ∃ i, w' = with_table (delete i (table w)) w).
Proof.
  unfold DeletePod, bind at 1, load.
  destruct (deref (heap w) p) as [x|]; [|done].
  unfold bind at 1, read_pods. unfold bind.
  destruct (DeletePod_range _ _ _ _ _ w) as [[] w1|] eqn:Hrange; [|done].
  intros [= <- <-]. split_and!; [done..|].
  apply DeletePod_range_inv in Hrange as [?|[?|?]]; eauto.
Qed.

(** ** Further properties of the lifecycle operations *)

Lemma delete_app_end {A} (l : list A) (x : A) : delete (length l) (l ++ [x]) = l.
Proof.
  rewrite delete_take_drop, take_app_length.
  rewrite drop_ge by (rewrite length_app; cbn; lia).
  apply app_nil_r.
Qed.

(** What [DeletePod] does to the records of the identity it is given. *)
Lemma DeletePod_tail w p x :
  table_ok w →
  deref (heap w) p = Some x →
  ∃ w',
    DeletePod p w = Returns None w' ∧
    heap w' = heap w ∧
    table_ok w' ∧
    live w' (Pod_Namespace x) (Pod_Name x)
      = tail (live w (Pod_Namespace x) (Pod_Name x)) ∧
    (live w (Pod_Namespace x) (Pod_Name x) = [] → w' = w) ∧
    length (table w') + length (take 1 (live w (Pod_Namespace x) (Pod_Name x)))
      = length (table w).
Proof.
  intros Hok Hx. eexists. split; [by apply DeletePod_find|].
  destruct (list_find _ (table w)) as [[i q]|] eqn:Hfind.
  - pose proof (filter_delete_find _ _ _ _ Hfind) as Hlive.
    apply list_find_Some in Hfind as (Hi & _ & _).
    unfold live. cbn. fold (table w). rewrite Hlive. cbn.
    split_and!; [done|by apply Forall_delete|done|done|].
    rewrite (length_delete (table w) i) by (by exists q).
    apply lookup_lt_Some in Hi. rewrite take_0. cbn. lia.
  - apply find_None_filter in Hfind. unfold live. rewrite Hfind. cbn.
    by split_and!.
Qed.

(** X1. Create followed by Delete of the same identity restores the table:
    when Create of a pod succeeded, a Delete given any pod object carrying
    that name and namespace returns success and leaves exactly the entries
    the table had before the Create, in the same order. *)
Theorem CreatePod_DeletePod_restores w l w1 q y :
  CreatePod (Some l) w = Returns None w1 →
  deref (heap w1) q = Some y →
  has_identity (heap w1) (Pod_Namespace y) (Pod_Name y) (Some l) = true →
  ∃ w2,
    DeletePod q w1 = Returns None w2 ∧
    table w2 = table w ∧
    heap w2 = heap w1.
Proof.
  intros Hcreate Hy Hid.
  apply CreatePod_inv in Hcreate
    as (x & Hx & [(? & _)|(_ & Hok & Hfresh & l' & [= <-] & ->)]); [done|].
  cbn in Hx.
  assert (Hok1 : table_ok (created l x w)) by by apply table_ok_created.
  rewrite (DeletePod_find _ q y Hok1 Hy).
  cbn in Hid. rewrite has_identity_alter_Status in Hid.
  apply has_identity_true in Hid as (x' & Hx' & Hname & Hns).
  cbn in Hx'. rewrite Hx in Hx'. injection Hx' as <-.
  rewrite <- Hname, <- Hns.
  assert (Hfind : list_find
            (λ p, has_identity (heap (created l x w)) (Pod_Namespace x) (Pod_Name x) p)
            (table (created l x w)) = Some (length (table w), Some l)).
  { cbn [created table with_table provider set_pods pods].
    fold (table w). rewrite list_find_app_r.
    - cbn. rewrite decide_True; [done|].
      rewrite has_identity_alter_Status.
      rewrite (has_identity_deref _ _ _ (Some l) x) by done.
      unfold same_identity. rewrite !bool_decide_eq_true_2 by done. exact I.
    - apply find_None_filter. rewrite <- Hfresh. unfold live.
      apply list_filter_iff. intros p. cbn. by rewrite has_identity_alter_Status. }
  rewrite Hfind. eexists. split; [done|]. split; [|done].
  cbn. fold (table w). apply delete_app_end.
Qed.

Lemma CreatePod_DeletePod_restores_witness :
  CreatePod (Some 2%positive) w_web = Returns None w_web_db ∧
  ∃ w2,
    DeletePod (Some 2%positive) w_web_db = Returns None w2 ∧
    table w2 = table w_web ∧
    heap w2 = heap w_web_db.
Proof.
  assert (Hcreate : CreatePod (Some 2%positive) w_web = Returns None w_web_db)
    by (vm_compute; reflexivity).
  split; [exact Hcreate|].
  refine (CreatePod_DeletePod_restores w_web 2%positive w_web_db
            (Some 2%positive) _ Hcreate _ _);
    vm_compute; reflexivity.
Defined.

(** X2. Delete is idempotent: in a table without nil entries that satisfies
    uniqueness, repeating a Delete that returned changes nothing at all; the
    second call returns success and leaves the whole process state as the
    first call left it. *)
Theorem DeletePod_twice w p r w1 :
  table_ok w → unique w →
  DeletePod p w = Returns r w1 →
  DeletePod p w1 = Returns None w1.
Proof.
  intros Hok Huniq Hdel.
  destruct (DeletePod_inv _ _ _ _ Hdel) as (_ & [x Hx] & _).
  destruct (DeletePod_tail w p x Hok Hx)
    as (w' & Hdel' & Hheap & Hok' & Hlive & _).
  rewrite Hdel in Hdel'. injection Hdel' as _ <-.
  assert (Hnil : live w1 (Pod_Namespace x) (Pod_Name x) = []).
  { rewrite Hlive. specialize (Huniq (Pod_Namespace x) (Pod_Name x)).
    destruct (live w (Pod_Namespace x) (Pod_Name x)) as [|? [|]]; cbn in *; done || lia. }
  rewrite <- Hheap in Hx.
  destruct (DeletePod_tail w1 p x Hok' Hx) as (w2 & Hdel2 & _ & _ & _ & Hsame & _).
  by rewrite Hdel2, (Hsame Hnil).
Qed.

Lemma DeletePod_twice_witness :
  table_ok w_web_db ∧ unique w_web_db ∧
  DeletePod (Some 3%positive) w_web_db
    = Returns None (after (DeletePod (Some 3%positive)) w_web_db) ∧
  table (after (DeletePod (Some 3%positive)) w_web_db) = [Some 2%positive] ∧
  DeletePod (Some 3%positive) (after (DeletePod (Some 3%positive)) w_web_db)
    = Returns None (after (DeletePod (Some 3%positive)) w_web_db).
Proof.
  destruct w_web_db_invariant as [Hok Huniq].
  assert (Hdel : DeletePod (Some 3%positive) w_web_db
                 = Returns None (after (DeletePod (Some 3%positive)) w_web_db))
    by (vm_compute; reflexivity).
  split; [exact Hok|]. split; [exact Huniq|]. split; [exact Hdel|].
  split; [vm_compute; reflexivity|].
  exact (DeletePod_twice w_web_db (Some 3%positive) None _ Hok Huniq Hdel).
Defined.

(** X3. Delete removes at most one entry, the first whose pod has the
    identity: the live records of that identity lose their head and nothing
    else, and the table shrinks by one exactly when there was such a
    record.  If two records shared the identity (as after a caller renamed a
    registered pod), the second is still registered and is what Get then
    returns. *)
Theorem DeletePod_first_only w p x :
  table_ok w →
  deref (heap w) p = Some x →
  ∃ w',
    DeletePod p w = Returns None w' ∧
    live w' (Pod_Namespace x) (Pod_Name x)
      = tail (live w (Pod_Namespace x) (Pod_Name x)) ∧
    length (table w') + length (take 1 (live w (Pod_Namespace x) (Pod_Name x)))
      = length (table w) ∧
    ∀ q1 q2 rest,
      live w (Pod_Namespace x) (Pod_Name x) = q1 :: q2 :: rest →
      GetPod (Pod_Namespace x) (Pod_Name x) w' = Returns (q2, None) w'.
Proof.
  intros Hok Hx.
  destruct (DeletePod_tail w p x Hok Hx)
    as (w' & Hdel & _ & Hok' & Hlive & _ & Hlen).
  exists w'. split_and!; try done.
  intros q1 q2 rest Hdup. rewrite GetPod_head by done.
  by rewrite Hlive, Hdup.
Qed.

(** X4. Delete then Get, and re-creation: in a table without nil entries
    that satisfies uniqueness, after Delete both Get and GetStatus of the
    deleted identity fail with NotFound, and a Create of any pod object
    carrying that identity succeeds again and is then what Get returns. *)
Theorem DeletePod_then_absent w p x :
  table_ok w → unique w →
  deref (heap w) p = Some x →
  ∃ w1,
    DeletePod p w = Returns None w1 ∧
    GetPod (Pod_Namespace x) (Pod_Name x) w1
      = Returns (None, Some (NotFound (Pod_Name x) (Pod_Namespace x))) w1 ∧
    GetPodStatus (Pod_Namespace x) (Pod_Name x) w1
      = Returns (Status_new v1.PodStatus_zero,
                 Some (NotFound (Pod_Name x) (Pod_Namespace x))) w1 ∧
    ∀ l y,
      heap w !! l = Some y →
      Pod_Name y = Pod_Name x → Pod_Namespace y = Pod_Namespace x →
      ∃ w2,
        CreatePod (Some l) w1 = Returns None w2 ∧
        GetPod (Pod_Namespace x) (Pod_Name x) w2 = Returns (Some l, None) w2.
Proof.
  intros Hok Huniq Hx.
  destruct (DeletePod_tail w p x Hok Hx)
    as (w1 & Hdel & Hheap & Hok1 & Hlive & _).
  assert (Hnil : live w1 (Pod_Namespace x) (Pod_Name x) = []).
  { rewrite Hlive. specialize (Huniq (Pod_Namespace x) (Pod_Name x)).
    destruct (live w (Pod_Namespace x) (Pod_Name x)) as [|? [|]]; cbn in *; done || lia. }
  exists w1. split_and!; [done| | |].
  - by rewrite GetPod_head, Hnil.
  - by apply GetPodStatus_absent_eq.
  - intros l y Hy Hname Hns. rewrite <- Hheap in Hy.
    rewrite <- Hname, <- Hns in Hnil |- *.
    exists (created l y w1). split.
    + by apply CreatePod_fresh.
    + by apply GetPod_created.
Qed.

Lemma w_renamed_ok : table_ok w_renamed.
Proof.
  unfold table_ok. change (table w_renamed) with [Some 1%positive; Some 2%positive].
  repeat (apply Forall_cons_2; [vm_compute; eexists; reflexivity|]).
  apply Forall_nil_2.
Qed.

Lemma DeletePod_first_only_witness :
  table_ok w_renamed ∧
  live w_renamed "default" "db" = [Some 1%positive; Some 2%positive] ∧
  ∃ w',
    DeletePod (Some 2%positive) w_renamed = Returns None w' ∧
    live w' "default" "db" = tail (live w_renamed "default" "db") ∧
    length (table w') + length (take 1 (live w_renamed "default" "db"))
      = length (table w_renamed) ∧
    ∀ q1 q2 rest,
      live w_renamed "default" "db" = q1 :: q2 :: rest →
      GetPod "default" "db" w' = Returns (q2, None) w'.
Proof.
  assert (Hx : deref (heap w_renamed) (Some 2%positive)
               = Some (v1.set_Status (synthesized_status db w_web) db))
    by (vm_compute; reflexivity).
  split; [exact w_renamed_ok|]. split; [vm_compute; reflexivity|].
  exact (DeletePod_first_only w_renamed (Some 2%positive) _ w_renamed_ok Hx).
Defined.

Lemma DeletePod_then_absent_witness :
  table_ok w_web_db ∧ unique w_web_db ∧
  deref (heap w_web_db) (Some 3%positive) = Some web' ∧
  ∃ w1,
    DeletePod (Some 3%positive) w_web_db = Returns None w1 ∧
    GetPod "default" "web" w1
      = Returns (None, Some (NotFound "web" "default")) w1 ∧
    GetPodStatus "default" "web" w1
      = Returns (Status_new v1.PodStatus_zero,
                 Some (NotFound "web" "default")) w1 ∧
    ∀ l y,
      heap w_web_db !! l = Some y →
      Pod_Name y = "web" → Pod_Namespace y = "default" →
      ∃ w2,
        CreatePod (Some l) w1 = Returns None w2 ∧
        GetPod "default" "web" w2 = Returns (Some l, None) w2.
Proof.
  destruct w_web_db_invariant as [Hok Huniq].
  assert (Hx : deref (heap w_web_db) (Some 3%positive) = Some web')
    by (vm_compute; reflexivity).
  split; [exact Hok|]. split; [exact Huniq|]. split; [exact Hx|].
  exact (DeletePod_then_absent w_web_db (Some 3%positive) web' Hok Huniq Hx).
Defined.

(** ** Whole call sequences *)

Lemma GetPodStatus_inv namespace name w sp e w' :
  GetPodStatus namespace name w = Returns (sp, e) w' → w' = w.
Proof.
  unfold GetPodStatus, bind.
  destruct (GetPod namespace name w) as [[q e'] w1|] eqn:Hget; [|done].
  apply GetPod_inv in Hget as [-> _].
  destruct e' as [?|]; [by intros [= _ _ <-]|].
  destruct q; [by intros [= _ _ <-]|done].
Qed.

(** What each call does to the world when it returns. *)
Lemma exec_cases c w w' :
  exec c w = Returns tt w' →
  match c with
  | Call_CreatePod p => ∃ r, CreatePod p w = Returns r w'
  | Call_DeletePod p => ∃ r, DeletePod p w = Returns r w'
  | Call_UpdatePod _ => w' = with_log Log_UpdatePod w
  | Call_RunInContainer _ _ container _ =>
      w' = with_log (Log_ExecInContainer container) w
  | Call_NodeConditions => w' = with_ticks (10 + ticks w) w
  | _ => w' = w
  end.
Proof.
  destruct c; cbn [exec]; unfold bind at 1.
  - destruct (CreatePod pod w) as [r w1|] eqn:Hc; [|done]. intros [= <-]. eauto.
  - by intros [= <-].
  - destruct (DeletePod pod w) as [r w1|] eqn:Hd; [|done]. intros [= <-]. eauto.
  - destruct (GetPod namespace name w) as [[q e] w1|] eqn:Hget; [|done].
    intros [= <-]. by apply GetPod_inv in Hget as [-> _].
  - by intros [= <-].
  - by intros [= <-].
  - by intros [= <-].
  - destruct (GetPodStatus namespace name w) as [[sp e] w1|] eqn:Hget; [|done].
    intros [= <-]. by apply GetPodStatus_inv in Hget.
  - by intros [= <-].
  - by intros [= <-].
  - by intros [= <-].
  - by intros [= <-].
  - by intros [= <-].
  - by intros [= <-].
Qed.

(** X9. Only Create and Delete change the table or a pod object: every
    other call that returns leaves the provider and all pod objects as they
    were, and the calls that only compute an answer (Get, GetStatus, List,
    the log stub, the full name, Capacity, NodeAddresses,
    NodeDaemonEndpoints, OperatingSystem) leave the whole process state
    untouched: no log line, no clock reading. *)
Theorem only_lifecycle_calls_mutate c w w' :
  lifecycle [c] = [] →
  exec c w = Returns tt w' →
  provider w' = provider w ∧ heap w' = heap w ∧
  (read_only c = true → w' = w).
Proof.
  intros Hc Hexec. apply exec_cases in Hexec.
  destruct c; try done; by subst w'.
Qed.

Lemma only_lifecycle_calls_mutate_witness :
  let c := Call_RunInContainer "default" "web" "nginx" ["ls"] in
  let w' := after (exec c) w_web_db in
  lifecycle [c] = [] ∧
  exec c w_web_db = Returns tt w' ∧
  logged w' = logged w_web_db ++ [Log_ExecInContainer "nginx"] ∧
  provider w' = provider w_web_db ∧ heap w' = heap w_web_db ∧
  (read_only c = true → w' = w_web_db).
Proof.
  assert (Hexec : exec (Call_RunInContainer "default" "web" "nginx" ["ls"]) w_web_db
                  = Returns tt (after (exec (Call_RunInContainer "default" "web"
                                               "nginx" ["ls"])) w_web_db))
    by (vm_compute; reflexivity).
  split; [reflexivity|]. split; [exact Hexec|]. split; [reflexivity|].
  exact (only_lifecycle_calls_mutate
           (Call_RunInContainer "default" "web" "nginx" ["ls"])
           w_web_db _ eq_refl Hexec).
Defined.

Lemma fmap_request_alter_Status s l (h : gmap loc v1.Pod) :
  request <$> alter (v1.set_Status s) l h = request <$> h.
Proof.
  apply map_eq. intros l'. rewrite !lookup_fmap, lookup_alter.
  case_decide as Hl; [subst l'|done]. by destruct (h !! l).
Qed.

(** What every call keeps, whatever the world it is made in. *)
Lemma exec_frame c w w' :
  exec c w = Returns tt w' →
  clock w' = clock w ∧
  request <$> heap w' = request <$> heap w ∧
  ∀ p, p ∈ table w → deref (heap w') p = deref (heap w) p.
Proof.
  intros Hexec. apply exec_cases in Hexec.
  destruct c; try (by subst w').
  - destruct Hexec as [r Hc].
    apply CreatePod_inv in Hc
      as (x & Hx & [(_ & _ & ->)|(_ & Hok & Hfresh & l & -> & ->)]); [done|].
    split_and!; [done|apply fmap_request_alter_Status|].
    intros p Hp. cbn. rewrite deref_alter. rewrite decide_False; [done|].
    intros ->.
    apply (live_not_nil w (Pod_Namespace x) (Pod_Name x) (Some l) Hp); [|done].
    rewrite (has_identity_deref _ _ _ _ _ Hx). unfold same_identity.
    by rewrite !bool_decide_eq_true_2.
  - destruct Hexec as [r Hd].
    apply DeletePod_inv in Hd as (_ & _ & [->|[i ->]]); done.
Qed.

(** X5. List order follows creation order: after any sequence of Create,
    Update and Delete operations that returned, the table is the initial
    table followed by pods handed to Create, with some entries left out and
    none reordered; the provider never inserts in the middle or moves an
    entry. *)
Theorem run_table_order ops w w' :
  run ops w = Returns tt w' →
  table w' `sublist_of` table w ++ create_args ops.
Proof.
  revert w. induction ops as [|o ops IH]; intros w.
  - intros [= <-]. cbn. by rewrite app_nil_r.
  - cbn [run]. unfold bind. destruct (step o w) as [r w1|] eqn:Hstep; [|done].
    intros Hrun. specialize (IH _ Hrun). etrans; [exact IH|].
    destruct o as [p|p|p]; cbn [step create_args] in *.
    + apply CreatePod_inv in Hstep
        as (x & Hx & [(_ & _ & ->)|(_ & _ & _ & l & -> & ->)]).
      * apply sublist_app; [done|]. by apply sublist_cons.
      * cbn. fold (table w). by rewrite <- app_assoc.
    + by injection Hstep as _ <-.
    + apply DeletePod_inv in Hstep as (_ & _ & [->|[i ->]]); [done|].
      apply sublist_app; [|done]. apply sublist_delete.
Qed.

Lemma run_table_order_witness :
  let w' := after (run sample_ops) w_empty in
  run sample_ops w_empty = Returns tt w' ∧
  table w' = [Some 2%positive; Some 3%positive] ∧
  create_args sample_ops
    = [Some 1%positive; Some 3%positive; Some 2%positive; Some 3%positive] ∧
  table w' `sublist_of` table w_empty ++ create_args sample_ops.
Proof.
  assert (Hrun : run sample_ops w_empty
                 = Returns tt (after (run sample_ops) w_empty))
    by (vm_compute; reflexivity).
  split; [exact Hrun|]. split; [vm_compute; reflexivity|].
  split; [reflexivity|].
  exact (run_table_order sample_ops w_empty _ Hrun).
Defined.

(** X7. The provider writes nothing but the status: after any sequence of
    calls of any of its methods that returned, every pod object has the
    name, namespace, annotations and container list it had at the start, no
    pod object has appeared or disappeared, and the clock is the same. *)
Theorem run_calls_keeps_requests cs w w' :
  run_calls cs w = Returns tt w' →
  request <$> heap w' = request <$> heap w ∧
  dom (heap w') = dom (heap w) ∧
  clock w' = clock w.
Proof.
  revert w. induction cs as [|c cs IH]; intros w.
  - by intros [= <-].
  - cbn [run_calls]. unfold bind. destruct (exec c w) as [[] w1|] eqn:Hexec; [|done].
    intros Hrun. destruct (IH _ Hrun) as (Hreq & Hdom & Hclk).
    destruct (exec_frame _ _ _ Hexec) as (Hclk1 & Hreq1 & _).
    split_and!; [congruence| |congruence].
    rewrite Hdom. rewrite <- (dom_fmap_L request (heap w1)), Hreq1.
    apply dom_fmap_L.
Qed.

Lemma run_calls_keeps_requests_witness :
  let w' := after (run_calls sample_calls) w_empty in
  run_calls sample_calls w_empty = Returns tt w' ∧
  table w' = [Some 2%positive; Some 3%positive] ∧
  request <$> heap w' = request <$> heap w_empty ∧
  dom (heap w') = dom (heap w_empty) ∧
  clock w' = clock w_empty.
Proof.
  assert (Hrun : run_calls sample_calls w_empty
                 = Returns tt (after (run_calls sample_calls) w_empty))
    by (vm_compute; reflexivity).
  split; [exact Hrun|]. split; [vm_compute; reflexivity|].
  exact (run_calls_keeps_requests sample_calls w_empty _ Hrun).
Defined.

(** X8. A registered record is frozen: no call of any method changes a pod
    object that the table points to when the call is made.  Create writes
    only to the pod it is about to register, so the status a record got
    when it was created stays as it is until the record is deleted. *)
Theorem exec_keeps_registered c w w' p :
  exec c w = Returns tt w' →
  p ∈ table w →
  deref (heap w') p = deref (heap w) p.
Proof.
  intros Hexec Hp. by apply (exec_frame _ _ _ Hexec).
Qed.

Lemma exec_keeps_registered_witness :
  let w' := after (exec (Call_CreatePod (Some 2%positive))) w_web in
  exec (Call_CreatePod (Some 2%positive)) w_web = Returns tt w' ∧
  Some 1%positive ∈ table w_web ∧
  heap w' ≠ heap w_web ∧
  deref (heap w') (Some 1%positive) = deref (heap w_web) (Some 1%positive).
Proof.
  assert (Hexec : exec (Call_CreatePod (Some 2%positive)) w_web
                  = Returns tt (after (exec (Call_CreatePod (Some 2%positive))) w_web))
    by (vm_compute; reflexivity).
  assert (Hin : Some 1%positive ∈ table w_web) by (vm_compute; left).
  split; [exact Hexec|]. split; [exact Hin|]. split.
  - intros Heq. apply (f_equal (λ h, v1.Phase ∘ v1.Status <$> h !! 2%positive)) in Heq.
    vm_compute in Heq. discriminate.
  - exact (exec_keeps_registered _ w_web _ (Some 1%positive) Hexec Hin).
Defined.

Lemma exec_invariant c w w' :
  table_ok w → unique w →
  exec c w = Returns tt w' →
  table_ok w' ∧ unique w'.
Proof.
  intros Hok Huniq Hexec. apply exec_cases in Hexec.
  destruct c; try (by subst w').
  - destruct Hexec as [r Hc]. by apply (step_invariant (Create pod) w r w').
  - destruct Hexec as [r Hd]. by apply (step_invariant (Delete pod) w r w').
Qed.

Lemma run_calls_invariant cs w w' :
  table_ok w → unique w →
  run_calls cs w = Returns tt w' →
  table_ok w' ∧ unique w'.
Proof.
  revert w. induction cs as [|c cs IH]; intros w Hok Huniq.
  - by intros [= <-].
  - cbn [run_calls]. unfold bind. destruct (exec c w) as [[] w1|] eqn:Hexec; [|done].
    destruct (exec_invariant _ _ _ Hok Huniq Hexec). eauto.
Qed.

(** X10. The queries never panic on a registry the provider built: after
    any sequence of calls of any methods, issued on a new provider, that
    returned, the table holds no nil pointer and at most one record per
    identity, and Get and GetStatus return for every identity, with the same
    error; Get's pointer is nil exactly when the error is not. *)
Theorem run_calls_queries_return rm nodeName operatingSystem h clk cs w :
  run_calls cs (boot rm nodeName operatingSystem h clk) = Returns tt w →
  table_ok w ∧ unique w ∧
  ∀ namespace name,
    ∃ q e sp,
      GetPod namespace name w = Returns (q, e) w ∧
      GetPodStatus namespace name w = Returns (sp, e) w ∧
      (e = None ↔ is_Some q).
Proof.
  intros Hrun.
  assert (Hinit : table_ok (boot rm nodeName operatingSystem h clk) ∧
                  unique (boot rm nodeName operatingSystem h clk)).
  { split; [apply Forall_nil_2|]. intros namespace name. cbn. lia. }
  destruct Hinit as [Hok0 Huniq0].
  destruct (run_calls_invariant _ _ _ Hok0 Huniq0 Hrun) as [Hok Huniq].
  split_and!; [done..|]. intros namespace name.
  destruct (head (live w namespace name)) as [p|] eqn:Hhd.
  - destruct (head_live_Some _ _ _ _ Hok Hhd) as (l & _ & _ & -> & _).
    exists (Some l), None, (Status_field l). split_and!.
    + by rewrite GetPod_head, Hhd.
    + by apply GetPodStatus_present_eq.
    + split; eauto.
  - exists None, (Some (NotFound name namespace)), (Status_new v1.PodStatus_zero).
    split_and!.
    + by rewrite GetPod_head, Hhd.
    + apply GetPodStatus_absent_eq; [done|]. by destruct (live w namespace name).
    + split; [done|]. by intros [? ?].
Qed.

Lemma run_calls_queries_return_witness :
  let w := after (run_calls sample_calls) w_empty in
  run_calls sample_calls (boot None "vk" "Linux" sample_heap (λ n, Z.of_nat n))
    = Returns tt w ∧
  table_ok w ∧ unique w ∧
  ∀ namespace name,
    ∃ q e sp,
      GetPod namespace name w = Returns (q, e) w ∧
      GetPodStatus namespace name w = Returns (sp, e) w ∧
      (e = None ↔ is_Some q).
Proof.
  assert (Hrun : run_calls sample_calls
                   (boot None "vk" "Linux" sample_heap (λ n, Z.of_nat n))
                 = Returns tt (after (run_calls sample_calls) w_empty))
    by (vm_compute; reflexivity).
  split; [exact Hrun|].
  exact (run_calls_queries_return None "vk" "Linux" sample_heap
           (λ n, Z.of_nat n) sample_calls _ Hrun).
Defined.

Lemma GetPodStatus_answer_head w namespace name :
  table_ok w →
  answer (GetPodStatus namespace name) w =
    Some (match head (live w namespace name) with
          | Some (Some l) => (Status_field l, None)
          | _ => (Status_new v1.PodStatus_zero, Some (NotFound name namespace))
          end).
Proof.
  intros Hok. unfold answer.
  destruct (head (live w namespace name)) as [p|] eqn:Hhd.
  - destruct (head_live_Some _ _ _ _ Hok Hhd) as (l & _ & _ & -> & _).
    by rewrite (GetPodStatus_present_eq _ _ _ l).
  - rewrite GetPodStatus_absent_eq; [done..|]. by destruct (live w namespace name).
Qed.

Lemma GetPod_answer_head w namespace name :
  table_ok w →
  answer (GetPod namespace name) w =
    Some (match head (live w namespace name) with
          | Some p => (p, None)
          | None => (None, Some (NotFound name namespace))
          end).
Proof. intros Hok. unfold answer. by rewrite GetPod_head. Qed.

(** X6. Create leaves the other identities alone: whether it succeeds or
    is rejected, a Create that returns changes no pod object but the one it
    was given, and for every identity other than that pod's the live
    records and the answers of Get and GetStatus are the same as before. *)
Theorem CreatePod_other_identities p w r w' :
  CreatePod p w = Returns r w' →
  ∃ x,
    deref (heap w) p = Some x ∧
    (∀ l', p ≠ Some l' → heap w' !! l' = heap w !! l') ∧
    ∀ namespace name,
      (namespace, name) ≠ (Pod_Namespace x, Pod_Name x) →
      live w' namespace name = live w namespace name ∧
      answer (GetPod namespace name) w' = answer (GetPod namespace name) w ∧
      answer (GetPodStatus namespace name) w' =
        answer (GetPodStatus namespace name) w.
Proof.
  intros Hcreate.
  apply CreatePod_inv in Hcreate
    as (x & Hx & [(_ & _ & ->)|(_ & Hok & Hfresh & l & -> & ->)]);
    exists x; (split; [done|]).
  - split; [done|]. intros namespace name _. split_and!; [done| |].
    + by apply GetPod_answer_frame.
    + by apply GetPodStatus_answer_frame.
  - split.
    { intros l' Hne. cbn. rewrite lookup_alter_ne; [done|]. by intros ->. }
    intros namespace name Hne.
    assert (Hlive : live (created l x w) namespace name = live w namespace name).
    { rewrite live_created, (has_identity_deref _ _ _ _ _ Hx).
      unfold same_identity.
      destruct (bool_decide_reflect (Pod_Name x = name)) as [<-|];
        destruct (bool_decide_reflect (Pod_Namespace x = namespace)) as [<-|];
        cbn; rewrite ?app_nil_r; done. }
    assert (Hok' : table_ok (created l x w)) by by apply table_ok_created.
    split_and!; [done| |].
    + by rewrite !GetPod_answer_head, Hlive.
    + by rewrite !GetPodStatus_answer_head, Hlive.
Qed.

Lemma CreatePod_other_identities_witness :
  CreatePod (Some 2%positive) w_web = Returns None w_web_db ∧
  ∃ x,
    deref (heap w_web) (Some 2%positive) = Some x ∧
    (∀ l', Some 2%positive ≠ Some l' → heap w_web_db !! l' = heap w_web !! l') ∧
    ∀ namespace name,
      (namespace, name) ≠ (Pod_Namespace x, Pod_Name x) →
      live w_web_db namespace name = live w_web namespace name ∧
      answer (GetPod namespace name) w_web_db
        = answer (GetPod namespace name) w_web ∧
      answer (GetPodStatus namespace name) w_web_db =
        answer (GetPodStatus namespace name) w_web.
Proof.
  assert (Hcreate : CreatePod (Some 2%positive) w_web = Returns None w_web_db)
    by (vm_compute; reflexivity).
  split; [exact Hcreate|].
  exact (CreatePod_other_identities (Some 2%positive) w_web None w_web_db Hcreate).
Defined.

(** X11. Create reads the clock once per declared container, in order: on
    success the i-th container status is running since the i-th reading the
    call took, and the call took as many readings as the pod has
    containers; a rejected Create takes none. *)
Theorem CreatePod_clock l w r w' :
  CreatePod (Some l) w = Returns r w' →
  ∃ x,
    heap w !! l = Some x ∧
    match r with
    | Some _ => ticks w' = ticks w
    | None =>
        ticks w' = ticks w + length (v1.Containers (v1.Spec x)) ∧
        ∃ x',
          heap w' !! l = Some x' ∧
          ∀ i c,
            v1.Containers (v1.Spec x) !! i = Some c →
            ∃ cs,
              v1.ContainerStatuses (v1.Status x') !! i = Some cs ∧
              v1.ContainerStatus_Name cs = v1.Container_Name c ∧
              v1.Running (v1.State cs)
                = Some {| v1.StartedAt := clock w (ticks w + i) |}
    end.
Proof.
  intros Hcreate.
  apply CreatePod_inv in Hcreate
    as (x & Hx & [(-> & _ & ->)|(-> & Hok & Hfresh & l' & [= <-] & ->)]);
    exists x; (split; [done|]); [done|].
  split; [done|]. eexists. split; [by apply heap_created|].
  intros i c Hc. cbn. rewrite list_lookup_imap, Hc. cbn. eauto.
Qed.

Lemma CreatePod_clock_witness :
  CreatePod (Some 2%positive) w_web = Returns None w_web_db ∧
  ticks w_web = 1 ∧
  ∃ x,
    heap w_web !! 2%positive = Some x ∧
    ticks w_web_db = ticks w_web + length (v1.Containers (v1.Spec x)) ∧
    ∃ x',
      heap w_web_db !! 2%positive = Some x' ∧
      ∀ i c,
        v1.Containers (v1.Spec x) !! i = Some c →
        ∃ cs,
          v1.ContainerStatuses (v1.Status x') !! i = Some cs ∧
          v1.ContainerStatus_Name cs = v1.Container_Name c ∧
          v1.Running (v1.State cs)
            = Some {| v1.StartedAt := clock w_web (ticks w_web + i) |}.
Proof.
  assert (Hcreate : CreatePod (Some 2%positive) w_web = Returns None w_web_db)
    by (vm_compute; reflexivity).
  split; [exact Hcreate|]. split; [reflexivity|].
  exact (CreatePod_clock 2%positive w_web None w_web_db Hcreate).
Defined.

(** X16. Among Create, Update and Delete only Create can return an error,
    and it is always the AlreadyExists error of the name and namespace of
    the pod it was given, never a NotFound one; an operation that returned
    an error has changed neither the table nor any pod object. *)
Theorem step_error o w e w' :
  step o w = Returns (Some e) w' →
  ∃ p x,
    o = Create p ∧
    deref (heap w) p = Some x ∧
    e = AlreadyExists (Pod_Name x) (Pod_Namespace x) ∧
    live w (Pod_Namespace x) (Pod_Name x) ≠ [] ∧
    table w' = table w ∧ heap w' = heap w ∧
    ∀ name namespace, e ≠ NotFound name namespace.
Proof.
  destruct o as [p|p|p]; cbn [step]; intros Hstep.
  - apply CreatePod_inv in Hstep
      as (x & Hx & [([= ->] & Hlive & ->)|([=] & _)]).
    exists p, x. split_and!; try done.
    intros name namespace. apply AlreadyExists_NotFound.
  - done.
  - by apply DeletePod_inv in Hstep as ([=] & _).
Qed.

Lemma step_error_witness :
  let w' := after (step (Create (Some 3%positive))) w_web in
  step (Create (Some 3%positive)) w_web
    = Returns (Some (AlreadyExists "web" "default")) w' ∧
  ∃ p x,
    Create (Some 3%positive) = Create p ∧
    deref (heap w_web) p = Some x ∧
    AlreadyExists "web" "default" = AlreadyExists (Pod_Name x) (Pod_Namespace x) ∧
    live w_web (Pod_Namespace x) (Pod_Name x) ≠ [] ∧
    table w' = table w_web ∧ heap w' = heap w_web ∧
    ∀ name namespace, AlreadyExists "web" "default" ≠ NotFound name namespace.
Proof.
  assert (Hstep : step (Create (Some 3%positive)) w_web
                  = Returns (Some (AlreadyExists "web" "default"))
                      (after (step (Create (Some 3%positive))) w_web))
    by (vm_compute; reflexivity).
  split; [exact Hstep|].
  exact (step_error (Create (Some 3%positive)) w_web _ _ Hstep).
Defined.

(** X17. An error from a query always means absence: if GetStatus returns
    an error, in any world, then the error is the NotFound error of the
    requested identity, Get returns the same error with a nil pod, the
    status pointer is a new zero-valued status, the whole table was
    scanned without meeting a nil entry, and no record has the identity. *)
Theorem GetPodStatus_error namespace name w sp e w' :
  GetPodStatus namespace name w = Returns (sp, Some e) w' →
  e = NotFound name namespace ∧
  sp = Status_new v1.PodStatus_zero ∧
  w' = w ∧
  GetPod namespace name w = Returns (None, Some e) w ∧
  table_ok w ∧
  live w namespace name = [] ∧
  ∀ name' namespace', e ≠ AlreadyExists name' namespace'.
Proof.
  unfold GetPodStatus, bind.
  destruct (GetPod namespace name w) as [[q e'] w1|] eqn:Hget; [|done].
  pose proof Hget as Hget'.
  apply GetPod_inv in Hget' as [-> [(-> & _)|(-> & -> & Hok & Hnil)]].
  - by destruct q.
  - intros [= <- <- <-]. split_and!; try done.
    intros name' namespace' Heq. by apply (AlreadyExists_NotFound _ _ _ _ (eq_sym Heq)).
Qed.

Lemma GetPodStatus_error_witness :
  GetPodStatus "default" "db" w_web
    = Returns (Status_new v1.PodStatus_zero, Some (NotFound "db" "default")) w_web ∧
  NotFound "db" "default" = NotFound "db" "default" ∧
  Status_new v1.PodStatus_zero = Status_new v1.PodStatus_zero ∧
  w_web = w_web ∧
  GetPod "default" "db" w_web
    = Returns (None, Some (NotFound "db" "default")) w_web ∧
  table_ok w_web ∧
  live w_web "default" "db" = [] ∧
  ∀ name' namespace', NotFound "db" "default" ≠ AlreadyExists name' namespace'.
Proof.
  assert (Hget : GetPodStatus "default" "db" w_web
                 = Returns (Status_new v1.PodStatus_zero,
                            Some (NotFound "db" "default")) w_web)
    by (vm_compute; reflexivity).
  split; [exact Hget|].
  exact (GetPodStatus_error "default" "db" w_web _ _ _ Hget).
Defined.

(** X13. A new provider is empty, and reports Linux whatever it was
    configured with: [NewProvider] returns no error; on the provider it
    returns, List is empty, Get and GetStatus fail with NotFound for every
    identity, Delete of any pod succeeds without changing anything, and
    OperatingSystem answers Linux even when another operating system was
    passed to [NewProvider]. *)
Theorem NewProvider_empty rm nodeName operatingSystem h clk :
  let w := boot rm nodeName operatingSystem h clk in
  snd (NewProvider rm nodeName operatingSystem) = None ∧
  GetPods w = Returns ([], None) w ∧
  (∀ namespace name,
     GetPod namespace name w
       = Returns (None, Some (NotFound name namespace)) w ∧
     GetPodStatus namespace name w
       = Returns (Status_new v1.PodStatus_zero,
                  Some (NotFound name namespace)) w) ∧
  (∀ p, is_Some (deref h p) → DeletePod p w = Returns None w) ∧
  OperatingSystem w = Returns "Linux" w.
Proof.
  cbn zeta. split_and!; try done.
  intros p [x Hx]. unfold DeletePod, bind, load. cbn. by rewrite Hx.
Qed.

(** ** The table depends on the Create and Delete calls only *)

Lemma untimed_lookup (h h' : gmap loc v1.Pod) l :
  untimed <$> h' = untimed <$> h →
  untimed <$> h' !! l = untimed <$> h !! l.
Proof. intros Heq. by rewrite <- !lookup_fmap, Heq. Qed.

Lemma untimed_deref (h h' : gmap loc v1.Pod) p x :
  untimed <$> h' = untimed <$> h →
  deref h p = Some x →
  ∃ x', deref h' p = Some x' ∧
        v1.ObjectMeta x' = v1.ObjectMeta x ∧ v1.Spec x' = v1.Spec x.
Proof.
  intros Heq Hx. destruct p as [l|]; [|done]. cbn in *.
  pose proof (untimed_lookup h h' l Heq) as Hl. rewrite Hx in Hl.
  destruct (h' !! l) as [x'|]; [|done].
  assert (Hu : untimed x' = untimed x) by (cbn in Hl; congruence).
  exists x'. split; [done|]. split.
  - exact (f_equal v1.ObjectMeta Hu).
  - exact (f_equal v1.Spec Hu).
Qed.

Lemma untimed_has_identity (h h' : gmap loc v1.Pod) namespace name p :
  untimed <$> h' = untimed <$> h →
  has_identity h' namespace name p = has_identity h namespace name p.
Proof.
  intros Heq. unfold has_identity. destruct p as [l|]; [|done]. cbn.
  pose proof (untimed_lookup h h' l Heq) as Hl.
  destruct (h' !! l) as [x'|], (h !! l) as [x|]; try done.
  assert (Hu : untimed x' = untimed x) by (cbn in Hl; congruence).
  unfold same_identity, Pod_Name, Pod_Namespace.
  by rewrite (f_equal v1.ObjectMeta Hu : v1.ObjectMeta x' = v1.ObjectMeta x).
Qed.

Lemma untimed_synthesized x x' w w' :
  v1.ObjectMeta x' = v1.ObjectMeta x →
  v1.Spec x' = v1.Spec x →
  untimed (v1.set_Status (synthesized_status x' w') x')
  = untimed (v1.set_Status (synthesized_status x w) x).
Proof.
  intros Hmeta Hspec. unfold untimed, v1.set_Status, synthesized_status.
  cbn. unfold Pod_Annotations. rewrite Hmeta, Hspec. do 2 f_equal.
  rewrite !fmap_imap. by apply imap_ext.
Qed.

(** Two worlds that agree on the table and, start times aside, on the pod
    objects; the first has a table without nil entries and with
    uniqueness. *)
Lemma step_sim o w w' r w1 :
  table_ok w → unique w →
  table w' = table w →
  untimed <$> heap w' = untimed <$> heap w →
  step o w = Returns r w1 →
  ∃ w1',
    step o w' = Returns r w1' ∧
    table w1' = table w1 ∧
    untimed <$> heap w1' = untimed <$> heap w1.
Proof.
  intros Hok Huniq Htable Hheap Hstep.
  assert (Hok' : table_ok w').
  { unfold table_ok in *. rewrite Htable.
    eapply Forall_impl; [exact Hok|]. intros p [x Hx].
    destruct (untimed_deref _ _ _ _ Hheap Hx) as (x' & Hx' & _). eauto. }
  assert (Hlive : ∀ namespace name, live w' namespace name = live w namespace name).
  { intros namespace name. unfold live. rewrite Htable.
    apply list_filter_iff. intros p. by rewrite (untimed_has_identity _ _ _ _ _ Hheap). }
  destruct o as [p|p|p]; cbn [step] in *.
  - apply CreatePod_inv in Hstep
      as (x & Hx & [(-> & Hnil & ->)|(-> & _ & Hfresh & l & -> & ->)]);
      destruct (untimed_deref _ _ _ _ Hheap Hx) as (x' & Hx' & Hmeta & Hspec);
      assert (Hname : Pod_Name x' = Pod_Name x)
        by (unfold Pod_Name; by rewrite Hmeta);
      assert (Hns : Pod_Namespace x' = Pod_Namespace x)
        by (unfold Pod_Namespace; by rewrite Hmeta).
    + exists (with_log (Log_CreatePod (Pod_Name x)) w'). split; [|done].
      rewrite (CreatePod_taken w' p x') by (rewrite ?Hlive, ?Hname, ?Hns; done).
      by rewrite Hname, Hns.
    + exists (created l x' w'). split.
      * apply CreatePod_fresh; [done..|]. by rewrite Hlive, Hname, Hns.
      * split; [cbn; fold (table w) (table w'); by rewrite Htable|].
        cbn. apply map_eq. intros l'. rewrite !lookup_fmap, !lookup_alter.
        cbn in Hx, Hx'. case_decide as Hl.
        -- subst l'. rewrite Hx, Hx'. cbn. f_equal.
           by apply untimed_synthesized.
        -- rewrite <- !lookup_fmap. by rewrite Hheap.
  - injection Hstep as <- <-. by exists (with_log Log_UpdatePod w').
  - pose proof Hstep as Hdel. apply DeletePod_inv in Hdel as (-> & [x Hx] & _).
    destruct (untimed_deref _ _ _ _ Hheap Hx) as (x' & Hx' & Hmeta & _).
    rewrite (DeletePod_find w p x) in Hstep by done. injection Hstep as <-.
    rewrite (DeletePod_find w' p x') by done. eexists. split; [done|].
    assert (Hfind :
      list_find (λ q, has_identity (heap w') (Pod_Namespace x') (Pod_Name x') q) (table w')
      = list_find (λ q, has_identity (heap w) (Pod_Namespace x) (Pod_Name x) q) (table w)).
    { rewrite Htable. apply list_find_ext. intros q.
      rewrite (untimed_has_identity _ _ _ _ _ Hheap).
      unfold Pod_Name, Pod_Namespace. by rewrite Hmeta. }
    rewrite Hfind. destruct (list_find _ (table w)) as [[i q]|]; [|done].
    split; [cbn; fold (table w) (table w'); by rewrite Htable|done].
Qed.

Lemma exec_other c w w' :
  lifecycle [c] = [] →
  exec c w = Returns tt w' →
  provider w' = provider w ∧ heap w' = heap w.
Proof.
  intros Hc Hexec. apply exec_cases in Hexec.
  destruct c; try done; by subst w'.
Qed.

Lemma run_calls_sim cs w w' wf :
  table_ok w → unique w →
  table w' = table w →
  untimed <$> heap w' = untimed <$> heap w →
  run_calls cs w = Returns tt wf →
  ∃ wf',
    run (lifecycle cs) w' = Returns tt wf' ∧
    table wf' = table wf ∧
    untimed <$> heap wf' = untimed <$> heap wf.
Proof.
  revert w w'. induction cs as [|c cs IH]; intros w w' Hok Huniq Htable Hheap.
  - intros [= <-]. by exists w'.
  - cbn [run_calls]. unfold bind at 1.
    destruct (exec c w) as [[] w1|] eqn:Hexec; [|done]. intros Hrun.
    destruct (exec_invariant _ _ _ Hok Huniq Hexec) as [Hok1 Huniq1].
    assert (Hother : lifecycle [c] = [] →
              ∃ wf', run (lifecycle (c :: cs)) w' = Returns tt wf' ∧
                     table wf' = table wf ∧
                     untimed <$> heap wf' = untimed <$> heap wf).
    { intros Hc. destruct (exec_other _ _ _ Hc Hexec) as [Hprov Hh].
      assert (Hlc : lifecycle (c :: cs) = lifecycle cs) by by destruct c.
      rewrite Hlc. apply (IH w1 w'); try done.
      - unfold table. by rewrite Hprov.
      - by rewrite Hh. }
    destruct c; try (by apply Hother).
    + apply exec_cases in Hexec as [r Hc].
      destruct (step_sim (Create pod) w w' r w1 Hok Huniq Htable Hheap Hc)
        as (w1' & Hstep' & Htable1 & Hheap1).
      cbn [lifecycle run]. unfold bind. rewrite Hstep'. by apply (IH w1 w1').
    + apply exec_cases in Hexec as [r Hd].
      destruct (step_sim (Delete pod) w w' r w1 Hok Huniq Htable Hheap Hd)
        as (w1' & Hstep' & Htable1 & Hheap1).
      cbn [lifecycle run]. unfold bind. rewrite Hstep'. by apply (IH w1 w1').
Qed.

(** X12. The table depends on the Create and Delete calls only.  Take any
    sequence of calls of the provider's methods, issued on a new provider,
    that returned.  Issuing only its Create and Delete calls, in the same
    order, also returns, ends with the same table (the same pointers in the
    same order), and with the same pod objects except for the start times
    recorded in container statuses: Update, the queries, the node-status
    calls and the log and exec stubs never affect which pods are registered
    or what their records say. *)
Theorem run_calls_lifecycle rm nodeName operatingSystem h clk cs w :
  run_calls cs (boot rm nodeName operatingSystem h clk) = Returns tt w →
  ∃ w',
    run (lifecycle cs) (boot rm nodeName operatingSystem h clk) = Returns tt w' ∧
    table w' = table w ∧
    untimed <$> heap w' = untimed <$> heap w.
Proof.
  apply run_calls_sim; try done.
  - apply Forall_nil_2.
  - intros namespace name. cbn. lia.
Qed.

Lemma run_calls_lifecycle_witness :
  let w := after (run_calls sample_calls) w_empty in
  run_calls sample_calls (boot None "vk" "Linux" sample_heap (λ n, Z.of_nat n))
    = Returns tt w ∧
  lifecycle sample_calls
    = [ Create (Some 1%positive); Create (Some 2%positive);
        Delete (Some 3%positive); Create (Some 3%positive) ] ∧
  ∃ w',
    run (lifecycle sample_calls)
        (boot None "vk" "Linux" sample_heap (λ n, Z.of_nat n)) = Returns tt w' ∧
    table w' = table w ∧
    untimed <$> heap w' = untimed <$> heap w.
Proof.
  assert (Hrun : run_calls sample_calls
                   (boot None "vk" "Linux" sample_heap (λ n, Z.of_nat n))
                 = Returns tt (after (run_calls sample_calls) w_empty))
    by (vm_compute; reflexivity).
  split; [exact Hrun|]. split; [reflexivity|].
  exact (run_calls_lifecycle None "vk" "Linux" sample_heap
           (λ n, Z.of_nat n) sample_calls _ Hrun).
Defined.

(** ** The full name of a pod *)

Lemma append_cons c s t : String c s +:+ t = String c (s +:+ t).
Proof. reflexivity. Qed.

Lemma append_nil_l t : EmptyString +:+ t = t.
Proof. reflexivity. Qed.

Lemma append_assoc s t u : (s +:+ t) +:+ u = s +:+ (t +:+ u).
Proof.
  induction s as [|c s IH]; [done|]. by rewrite !append_cons, IH.
Qed.

Lemma append_not_self s c t : s +:+ String c t ≠ s.
Proof.
  assert (Hlen : ∀ a b, String.length (a +:+ b) = String.length a + String.length b).
  { intros a b. induction a as [|c' a IH]; [done|].
    rewrite append_cons. cbn. by rewrite IH. }
  intros Heq. apply (f_equal String.length) in Heq. rewrite Hlen in Heq. cbn in Heq. lia.
Qed.

(** X14. The full name tells the identity when namespaces have no dash:
    two pods with dash-free namespaces get the same full name
    ["namespace-pod"] only if they have the same namespace and the same
    name. *)
Theorem GetPodFullName_injective namespace1 pod1 namespace2 pod2 w :
  dash_free namespace1 = true →
  dash_free namespace2 = true →
  answer (GetPodFullName namespace1 pod1) w
    = answer (GetPodFullName namespace2 pod2) w →
  namespace1 = namespace2 ∧ pod1 = pod2.
Proof.
  intros H1 H2 [= Heq]. revert namespace2 H2 Heq.
  induction namespace1 as [|c1 s1 IH]; intros [|c2 s2] H2 Heq.
  - change (String "-" pod1 = String "-" pod2) in Heq. by injection Heq as ->.
  - change (String "-" pod1 = String c2 (s2 +:+ "-" +:+ pod2)) in Heq.
    injection Heq as <- _. cbn in H2. done.
  - change (String c1 (s1 +:+ "-" +:+ pod1) = String "-" pod2) in Heq.
    injection Heq as -> _. cbn in H1. done.
  - change (String c1 (s1 +:+ "-" +:+ pod1) = String c2 (s2 +:+ "-" +:+ pod2)) in Heq.
    injection Heq as -> Heq.
    cbn in H1, H2. apply andb_true_iff in H1 as [_ H1].
    apply andb_true_iff in H2 as [_ H2].
    destruct (IH H1 s2 H2 Heq) as [-> ->]. done.
Qed.

Lemma GetPodFullName_injective_witness :
  dash_free "default" = true ∧
  answer (GetPodFullName "default" "web") w_empty = Some "default-web" ∧
  ("default" = "default" ∧ "web" = "web").
Proof.
  split; [reflexivity|]. split; [reflexivity|].
  exact (GetPodFullName_injective "default" "web" "default" "web" w_empty
           eq_refl eq_refl eq_refl).
Defined.

(** X15. In general the full name does not tell the identity: for all
    strings a, b and c, the pod named c in the namespace a-b and the pod
    named b-c in the namespace a are different identities with the same
    full name. *)
Theorem GetPodFullName_collision a b c w :
  (a +:+ "-" +:+ b, c) ≠ (a, b +:+ "-" +:+ c) ∧
  answer (GetPodFullName (a +:+ "-" +:+ b) c) w
    = answer (GetPodFullName a (b +:+ "-" +:+ c)) w.
Proof.
  split.
  - intros [= Heq _]. by apply append_not_self in Heq.
  - unfold answer, GetPodFullName, ret. f_equal.
    by rewrite !append_assoc.
Qed.

(** ** Registering many pods *)

Lemma request_has_identity (h h' : gmap loc v1.Pod) namespace name p :
  request <$> h' = request <$> h →
  has_identity h' namespace name p = has_identity h namespace name p.
Proof.
  intros Heq. unfold has_identity. destruct p as [l|]; [|done]. cbn.
  assert (Hl : request <$> h' !! l = request <$> h !! l)
    by by rewrite <- !lookup_fmap, Heq.
  destruct (h' !! l) as [x'|], (h !! l) as [x|]; try done.
  assert (Hmeta : v1.ObjectMeta x' = v1.ObjectMeta x)
    by (cbn in Hl; unfold request in Hl; congruence).
  unfold same_identity, Pod_Name, Pod_Namespace. by rewrite Hmeta.
Qed.

Lemma run_app ops1 ops2 w :
  run (ops1 ++ ops2) w =
    match run ops1 w with
    | Returns _ w1 => run ops2 w1
    | Panics => Panics
    end.
Proof.
  revert w. induction ops1 as [|o ops1 IH]; intros w; [done|].
  cbn [run app]. unfold bind. by destruct (step o w).
Qed.

Lemma run_creates_all_strong h clk (ls : list loc) :
  (∀ l, l ∈ ls → is_Some (h !! l)) →
  (∀ i j l1 l2 x1 x2,
     ls !! i = Some l1 → ls !! j = Some l2 →
     h !! l1 = Some x1 → h !! l2 = Some x2 →
     Pod_Name x1 = Pod_Name x2 → Pod_Namespace x1 = Pod_Namespace x2 →
     i = j) →
  ∃ w,
    run ((λ l, Create (Some l)) <$> ls) (init h clk) = Returns tt w ∧
    table w = Some <$> ls ∧
    table_ok w ∧
    request <$> heap w = request <$> h.
Proof.
  induction ls as [|l ls IH] using rev_ind; intros Halloc Hdistinct.
  - exists (init h clk). split_and!; try done. apply Forall_nil_2.
  - destruct IH as (w & Hrun & Htable & Hok & Hreq).
    { intros l' Hl'. apply Halloc. apply elem_of_app. by left. }
    { intros i j l1 l2 x1 x2 Hi Hj. apply Hdistinct; by apply lookup_app_l_Some. }
    destruct (Halloc l) as [x Hx]; [apply elem_of_app; right; by left|].
    assert (Hx' : ∃ x', heap w !! l = Some x' ∧ request x' = request x).
    { assert (Hl : request <$> heap w !! l = request <$> h !! l)
        by by rewrite <- !lookup_fmap, Hreq.
      rewrite Hx in Hl. destruct (heap w !! l) as [x'|]; [|done].
      exists x'. split; [done|]. cbn in Hl. congruence. }
    destruct Hx' as (x' & Hx' & Hrx).
    assert (Hmeta : v1.ObjectMeta x' = v1.ObjectMeta x)
      by (unfold request in Hrx; congruence).
    assert (Hname : Pod_Name x' = Pod_Name x)
      by (unfold Pod_Name; by rewrite Hmeta).
    assert (Hns : Pod_Namespace x' = Pod_Namespace x)
      by (unfold Pod_Namespace; by rewrite Hmeta).
    assert (Hfresh : live w (Pod_Namespace x') (Pod_Name x') = []).
    { apply find_None_filter, list_find_None, Forall_forall.
      intros q Hq Hid. rewrite Htable in Hq.
      apply list_elem_of_fmap in Hq as (l' & -> & Hl').
      apply list_elem_of_lookup in Hl' as [i Hi].
      apply Is_true_true in Hid.
      rewrite (request_has_identity _ _ _ _ _ Hreq) in Hid.
      apply has_identity_true in Hid as (y & Hy & Hyn & Hyns). cbn in Hy.
      assert (i = length ls) as ->.
      { apply (Hdistinct i (length ls) l' l y x); try congruence.
        - by apply lookup_app_l_Some.
        - by rewrite lookup_app_r, Nat.sub_diag. }
      apply lookup_lt_Some in Hi. lia. }
    exists (created l x' w). split_and!.
    + rewrite fmap_app, run_app, Hrun. cbn [fmap list_fmap run step].
      unfold bind. by rewrite (CreatePod_fresh w l x').
    + cbn. fold (table w). by rewrite Htable, fmap_app.
    + by apply table_ok_created.
    + cbn. by rewrite fmap_request_alter_Status.
Qed.

(** X18. Create has no capacity limit: starting from an empty registry,
    creating any number of pods with pairwise different identities
    registers all of them; every Create succeeds, and the table then holds
    exactly these pods in the order of creation, however many they are
    (more than the 20 pods Capacity advertises included). *)
Theorem run_creates_all h clk (ls : list loc) :
  (∀ l, l ∈ ls → is_Some (h !! l)) →
  (∀ i j l1 l2 x1 x2,
     ls !! i = Some l1 → ls !! j = Some l2 →
     h !! l1 = Some x1 → h !! l2 = Some x2 →
     Pod_Name x1 = Pod_Name x2 → Pod_Namespace x1 = Pod_Namespace x2 →
     i = j) →
  ∃ w,
    run ((λ l, Create (Some l)) <$> ls) (init h clk) = Returns tt w ∧
    GetPods w = Returns (Some <$> ls, None) w ∧
    length (table w) = length ls.
Proof.
  intros Halloc Hdistinct.
  destruct (run_creates_all_strong h clk ls Halloc Hdistinct)
    as (w & Hrun & Htable & _).
  exists w. split_and!; [done| |].
  - unfold GetPods, bind, read_pods, ret. fold (table w). by rewrite Htable.
  - by rewrite Htable, length_fmap.
Qed.

Lemma run_creates_all_witness :
  ∃ w,
    run [Create (Some 1%positive); Create (Some 2%positive)] w_empty
      = Returns tt w ∧
    GetPods w = Returns ([Some 1%positive; Some 2%positive], None) w ∧
    length (table w) = 2.
Proof.
  refine (run_creates_all sample_heap (λ n, Z.of_nat n)
            [1%positive; 2%positive] _ _).
  - intros l Hl. apply elem_of_cons in Hl as [->|Hl]; [by eexists|].
    apply elem_of_cons in Hl as [->|Hl]; [by eexists|].
    by apply not_elem_of_nil in Hl.
  - intros [|[|i]] [|[|j]] l1 l2 x1 x2 Hi Hj; try done;
      injection Hi as <-; injection Hj as <-;
      intros Hx1 Hx2; vm_compute in Hx1, Hx2;
      injection Hx1 as <-; injection Hx2 as <-; intros Hn; vm_compute in Hn; done.
Defined.

(** ** The status pointer *)

(** X19. GetStatus hands out a pointer into the registered pod object:
    when it returns without error, in any world, the status pointer is the
    address of the status field of a pod the table points to, and not a
    copy; so after any later write to that pod object, reading through the
    pointer gives the status as written. *)
Theorem GetPodStatus_alias namespace name w sp w' :
  GetPodStatus namespace name w = Returns (sp, None) w' →
  ∃ l x,
    sp = Status_field l ∧
    Some l ∈ table w ∧
    heap w !! l = Some x ∧
    Pod_Name x = name ∧ Pod_Namespace x = namespace ∧
    read_status w sp = Some (v1.Status x) ∧
    ∀ f, read_status (poke l f w) sp = Some (v1.Status (f x)).
Proof.
  unfold GetPodStatus, bind.
  destruct (GetPod namespace name w) as [[q e'] w1|] eqn:Hget; [|done].
  apply GetPod_inv in Hget as [-> [(-> & Hq & Hid)|(-> & _)]]; [|done].
  apply has_identity_true in Hid as (x & Hx & Hname & Hns).
  destruct q as [l|]; [|done]. intros [= <- <-]. cbn in Hx.
  exists l, x. split_and!; try done.
  - cbn. by rewrite Hx.
  - intros f. cbn. by rewrite lookup_alter_eq, Hx.
Qed.

Lemma GetPodStatus_alias_witness :
  GetPodStatus "default" "web" w_web_db
    = Returns (Status_field 1%positive, None) w_web_db ∧
  ∃ l x,
    Status_field 1%positive = Status_field l ∧
    Some l ∈ table w_web_db ∧
    heap w_web_db !! l = Some x ∧
    Pod_Name x = "web" ∧ Pod_Namespace x = "default" ∧
    read_status w_web_db (Status_field 1%positive) = Some (v1.Status x) ∧
    ∀ f, read_status (poke l f w_web_db) (Status_field 1%positive)
         = Some (v1.Status (f x)).
Proof.
  assert (Hget : GetPodStatus "default" "web" w_web_db
                 = Returns (Status_field 1%positive, None) w_web_db)
    by (vm_compute; reflexivity).
  split; [exact Hget|].
  exact (GetPodStatus_alias "default" "web" w_web_db _ _ Hget).
Defined.
